(** * cherrytree-to-org: timeline reconstruction

    A shallow embedding of [2019-12-22-cherrytree-to-org/t.py]: the
    flattening of a CherryTree XML tree into org nodes ([parse_nodes]), the
    timeline scan ([no_consecutive_duplicates]), the document renderer
    ([document]), the entry generator ([get_documents_by_time]) and its
    consumer ([commit_documents_by_time]).

    Conventions of the embedding.
    - A Python [str] is a [string]; a character stands for one code point
      below 256.
    - A [datetime] is an integer; only the order and the equality of
      datetimes are used by the program.
    - A raised exception is the [Raise] branch of [res]; the program catches
      none, so the first exception ends the computation.
    - The [Counter] named [seen] is one object shared by the scan, by every
      triple it yields and by every suspended [document] generator.  A value
      of type [gmap nat nat] is the content of that object at one moment;
      what a consumer reads depends on the moment it reads. *)

From Stdlib Require Import ZArith Lia Ascii String.
From stdpp Require Import base option list sorting gmap strings.

Local Open Scope string_scope.
Local Open Scope list_scope.
Local Open Scope Z_scope.
Local Open Scope nat_scope.

Set Warnings "-register-all".

(** ** Exceptions *)

Inductive exn : Set :=
  | TypeError
  | ValueError
  | OverflowError
  | OSError
  | RuntimeError
  | AssertionError
  | KeyError.

Inductive res (A : Type) : Type :=
  | Ok (a : A)
  | Raise (e : exn).

Arguments Ok {A} a.
Arguments Raise {A} e.

(** Sequencing: the first exception ends the computation. *)
Global Instance res_bind : MBind res := λ A B k m,
  match m with
  | Ok a => k a
  | Raise e => Raise e
  end.

Global Instance res_ret : MRet res := λ A a, Ok a.

Global Instance res_fmap : FMap res := λ A B f m,
  match m with
  | Ok a => Ok (f a)
  | Raise e => Raise e
  end.

(** [[f(x) for x in l]] where [f] may raise. *)
Fixpoint traverse {A B} (f : A → res B) (l : list A) : res (list B) :=
  match l with
  | [] => Ok []
  | x :: l' => y ← f x; ys ← traverse f l'; Ok (y :: ys)
  end.

(** ** Strings *)

Definition nl : string := String "010"%char EmptyString.

Definition is_empty (s : string) : bool :=
  match s with
  | EmptyString => true
  | String _ _ => false
  end.

(** [str.isspace] on the code points below 256. *)
Definition isspace (c : ascii) : bool :=
  let n := nat_of_ascii c in
  ((9 <=? n) && (n <=? 13)) || ((28 <=? n) && (n <=? 32))
  || (n =? 133) || (n =? 160).

(** [s.rstrip()] *)
Fixpoint rstrip (s : string) : string :=
  match s with
  | EmptyString => EmptyString
  | String c s' =>
      let r := rstrip s' in
      if isspace c && is_empty r then EmptyString else String c r
  end.

(** [re.compile(r"^\*", re.M).sub(r"\\ast{}", s)]: an asterisk that opens
    the string or follows a line feed is replaced by [\ast{}].  [bol] says
    that the next character is at the beginning of a line. *)
Fixpoint asterisk_sub (bol : bool) (s : string) : string :=
  match s with
  | EmptyString => EmptyString
  | String c s' =>
      if bol && Ascii.eqb c "*"%char
      then "\ast{}" +:+ asterisk_sub false s'
      else String c (asterisk_sub (Ascii.eqb c "010"%char) s')
  end.

(** ['*' * level] *)
Fixpoint stars (level : nat) : string :=
  match level with
  | O => EmptyString
  | S l => String "*"%char (stars l)
  end.

(** [f"{x}"] for [x] a [str] or [None]. *)
Definition format_str (x : option string) : string :=
  match x with
  | Some s => s
  | None => "None"
  end.

(** [EmptyString.join(l)] *)
Definition join (l : list string) : string :=
  foldr String.append EmptyString l.

(** ** The XML tree (lxml elements) *)

Inductive element : Type :=
  | Element (tag : string) (attrib : list (string * string))
            (text : option string) (children : list element).

Definition tag (e : element) : string :=
  match e with Element t _ _ _ => t end.
Definition attrib (e : element) : list (string * string) :=
  match e with Element _ a _ _ => a end.
Definition elem_text (e : element) : option string :=
  match e with Element _ _ t _ => t end.
Definition children (e : element) : list element :=
  match e with Element _ _ _ c => c end.

(** [node.get(key)]: the attribute's value, [None] when the element has no
    such attribute. *)
Fixpoint get (a : list (string * string)) (key : string) : option string :=
  match a with
  | [] => None
  | (k, v) :: a' => if String.eqb k key then Some v else get a' key
  end.

(** [node.iterchildren(t)] *)
Definition iterchildren (t : string) (cs : list element) : list element :=
  filter (λ c, tag c = t) cs.

(** ** Nodes *)

Definition datetime : Type := Z.
Bind Scope Z_scope with datetime.

Record Node : Type := mkNode {
  name : option string;
  header : string;
  text : string;
  created : datetime;
  modified : datetime
}.

(** ** Flattening: [parse_nodes] *)

(** What [parse_date] uses of Python's floats: [float(s)] on a [str]
    ([None] when it raises [ValueError]), the truth value of a float
    (false for zero only) and [datetime.fromtimestamp]. *)
Class PyFloat : Type := {
  float : Type;
  float_of_str : string → option float;
  float_bool : float → bool;
  fromtimestamp : float → res datetime
}.

Section flatten.
Context `{PyFloat}.

(** The argument is the result of [node.get]: a [str] or [None], never an
    [int] or a [float], so the conversion is always attempted;
    [float(None)] raises [TypeError]. *)
Definition parse_date (timestamp : option string) : res (option datetime) :=
  match timestamp with
  | None => Raise TypeError
  | Some s =>
      match float_of_str s with
      | None => Raise ValueError
      | Some f =>
          if float_bool f
          then d ← fromtimestamp f; Ok (Some d)
          else Ok None
      end
  end.

(** The body text of a node, from its [rich_text] children. *)
Fixpoint rich_text (cs : list element) : string :=
  match cs with
  | [] => EmptyString
  | c :: cs' =>
      match elem_text c with
      | None => rich_text cs'
      | Some t =>
          if is_empty t then rich_text cs'
          else rstrip (asterisk_sub true t) +:+ nl +:+ rich_text cs'
      end
  end.

(** The loop [for child in node.iterchildren("node"): yield from
    render(child)], with the tag test of [iterchildren] made in the
    loop. *)
Definition each_child (render : element → res (list Node))
    : list element → res (list Node) :=
  fix each (l : list element) : res (list Node) :=
    match l with
    | [] => Ok []
    | child :: l' =>
        if decide (tag child = "node")
        then ns ← render child; ms ← each l'; Ok (ns ++ ms)
        else each l'
    end.

(** [list(render_node(node, level, default_created, default_modified))] *)
Fixpoint render_node (node : element) (level : nat)
    (default_created default_modified : datetime) : res (list Node) :=
  match node with
  | Element _ a _ cs =>
      let name := get a "name" in
      let header := stars level +:+ " " +:+ format_str name +:+ nl in
      c ← parse_date (get a "ts_creation");
      let created := default default_created c in
      m ← parse_date (get a "ts_lastsave");
      let modified := default default_modified m in
      let text := rich_text (iterchildren "rich_text" cs) in
      rest ← each_child
               (λ child, render_node child (S level) created modified) cs;
      Ok (mkNode name header text created modified :: rest)
  end.


(** [list(render_nodes(node))]; [now] is the value of [datetime.now()]. *)
Fixpoint render_nodes (now : datetime) (cs : list element) : res (list Node) :=
  match cs with
  | [] => Ok []
  | child :: cs' =>
      ns ← render_node child 1 now now;
      ms ← render_nodes now cs';
      Ok (ns ++ ms)
  end.

Definition parse_nodes (now : datetime) (node : element) : res (list Node) :=
  render_nodes now (children node).

(** A timestamp attribute that is present and that [float] parses to a
    float whose truth value is false, that is, to zero. *)
Definition zero_timestamp (v : option string) : Prop :=
  ∃ s f, v = Some s ∧ float_of_str s = Some f ∧ float_bool f = false.
End flatten.

(** ** The timeline: events and the shared counter *)

(** An event is a [(time, index)] tuple. *)
Definition event : Type := datetime * nat.

(** Python's order on the tuples [(datetime, int)]. *)
Definition event_le (a b : event) : Prop :=
  (a.1 < b.1)%Z ∨ (a.1 = b.1 ∧ a.2 ≤ b.2).

Global Instance event_le_dec : RelDecision event_le.
Proof. intros a b. unfold event_le. apply _. Defined.

(** [enumerate(l)] *)
Definition enumerate {A} (l : list A) : list (nat * A) := imap pair l.

(** [chain.from_iterable(((n.created, i), (n.modified, i)) for i, n in
    enumerate(nodes))] *)
Definition events (nodes : list Node) : list event :=
  '(i, n) ← enumerate nodes; [(created n, i); (modified n, i)].

(** [times = sorted(...)].  The order is total on tuples and two tuples
    that compare equal are the same tuple, so every sorting algorithm
    returns the list that Python's [sorted] returns. *)
Definition times (nodes : list Node) : list event :=
  merge_sort event_le (events nodes).

(** The content of a [Counter] keyed by node index. *)
Abbreviation Counter := (gmap nat nat).

(** [seen[k]]: a missing key reads as zero. *)
Definition count (seen : Counter) (k : nat) : nat := default 0 (seen !! k).

(** [seen[k] += 1] *)
Definition incr (k : nat) (seen : Counter) : Counter :=
  <[k := count seen k + 1]> seen.

(** Python's order on the tuples [(int, int)] of [seen.items()]. *)
Definition item_le (a b : nat * nat) : Prop :=
  a.1 < b.1 ∨ (a.1 = b.1 ∧ a.2 ≤ b.2).

Global Instance item_le_dec : RelDecision item_le.
Proof. intros a b. unfold item_le. apply _. Defined.

(** [sorted(seen.items())] *)
Definition sorted_items (seen : Counter) : list (nat * nat) :=
  merge_sort item_le (map_to_list seen).

(** ** The document renderer *)

(** What one item of [sorted(seen.items())] contributes to the document.
    [nodes_by_index] is [dict(enumerate(nodes))], so [nodes_by_index[i]] is
    the list lookup, with [KeyError] out of range. *)
Definition document_item (nodes : list Node) (item : nat * nat)
    : res (list string) :=
  let '(node_id, times_seen) := item in
  if decide (times_seen = 0) then Raise AssertionError
  else match nodes !! node_id with
       | None => Raise KeyError
       | Some n =>
           Ok (header n ::
               (if decide (times_seen = 2)
                then (if is_empty (text n) then [] else [text n])
                else []))
       end.

(** [list(document(seen))] for the content [seen] that the counter has when
    the generator is first advanced. *)
Definition document (nodes : list Node) (seen : Counter) : res (list string) :=
  ls ← traverse (document_item nodes) (sorted_items seen); Ok (concat ls).

(** ** The scan: [no_consecutive_duplicates] *)

(** A yielded [(last_t, last_id, seen)]: the third component is the content
    of the shared counter at the moment of the [yield]. *)
Definition triple : Type := datetime * nat * Counter.

(** The [for] loop and the final [yield], from the loop's state. *)
Fixpoint scan (evs : list event) (last_t : datetime) (last_id : nat)
    (seen : Counter) : list triple :=
  match evs with
  | [] => [(last_t, last_id, seen)]
  | (t, node_id) :: evs' =>
      let seen' := incr node_id seen in
      (if decide (node_id ≠ last_id) then [(last_t, last_id, seen')] else [])
      ++ scan evs' t node_id seen'
  end.

(** [next(times_iter)] on an empty list raises [StopIteration] inside the
    generator, which Python (3.7 and later, PEP 479) turns into
    [RuntimeError].  The loop then iterates [times] itself, from its first
    element, not [times_iter]. *)
Definition no_consecutive_duplicates (times : list event) : res (list triple) :=
  match times with
  | [] => Raise RuntimeError
  | (last_t, last_id) :: _ => Ok (scan times last_t last_id (incr last_id ∅))
  end.

(** ** Entries *)

(** [entry_text] is the suspended generator [document(counts)]: [counts] is
    the shared counter, so the lines depend on the counter's content when
    the generator is first advanced. *)
Record Entry : Type := mkEntry {
  time : datetime;
  node : Node;
  description : string;
  entry_text : Counter → res (list string)
}.

Definition entry_of (nodes : list Node) (tr : triple) : res (Entry * Counter) :=
  let '(t, node_id, counts) := tr in
  match nodes !! node_id with
  | None => Raise KeyError
  | Some n =>
      Ok (mkEntry t n
            (if decide (count counts node_id = 2) then EmptyString
             else "section: ")
            (document nodes),
          counts)
  end.

(** The body of [get_documents_by_time] after the flattening: the entries
    in the order they are yielded, each with the content of the shared
    counter at the moment it is yielded. *)
Definition documents_by_time (nodes : list Node) : res (list (Entry * Counter)) :=
  trs ← no_consecutive_duplicates (times nodes); traverse (entry_of nodes) trs.

Definition get_documents_by_time `{PyFloat} (now : datetime) (root : element)
    : res (list (Entry * Counter)) :=
  nodes ← parse_nodes now root; documents_by_time nodes.

(** ** Consumers *)

Record Commit : Type := mkCommit {
  content : string;
  message : string;
  author_date : datetime
}.

(** What [commit_documents_by_time] asks of the file and of the repository
    when every write and every git call succeeds: per entry, the content
    written, the message and the datetime that is formatted into the author
    date.  Each entry's text is joined as soon as the entry is received,
    before the generator is resumed; the exceptions of the writes and of
    git are outside this model. *)
Definition commit_documents_by_time (entries : list (Entry * Counter))
    : res (list Commit) :=
  traverse (λ '(e, seen),
              ls ← entry_text e seen;
              Ok (mkCommit (join ls)
                    (description e +:+ format_str (name (node e)))
                    (time e)))
           entries.

(** The document an entry shows to [commit_documents_by_time]. *)
Definition rendered (es : Entry * Counter) : res (list string) :=
  entry_text es.1 es.2.

(** The content of the counter once the generator is exhausted. *)
Definition final_seen (entries : list (Entry * Counter)) : Counter :=
  match last entries with
  | Some (_, seen) => seen
  | None => ∅
  end.

(** The document an entry shows when its text is first read after the
    generator is exhausted, as in [[list(e.text) for e in list(entries)]]. *)
Definition rendered_after (entries : list (Entry * Counter)) (e : Entry)
    : res (list string) :=
  entry_text e (final_seen entries).

(** ** Maximal runs *)

(** The maximal runs of consecutive events with the same node index. *)
Fixpoint runs (evs : list event) : list (list event) :=
  match evs with
  | [] => []
  | e :: evs' =>
      match runs evs' with
      | (e' :: r) :: rs =>
          if decide (e.2 = e'.2) then (e :: e' :: r) :: rs
          else [e] :: (e' :: r) :: rs
      | _ => [[e]]
      end
  end.

(** ** A float instance for examples *)

Fixpoint digits_value (acc : Z) (s : string) : option Z :=
  match s with
  | EmptyString => Some acc
  | String c s' =>
      let n := nat_of_ascii c in
      if (48 <=? n) && (n <=? 57)
      then digits_value (10 * acc + Z.of_nat (n - 48))%Z s'
      else None
  end.

Definition numeral (s : string) : option Z :=
  if is_empty s then None else digits_value 0%Z s.

(** Floats restricted to the values of short numerals of ASCII digits,
    which [float] accepts and [fromtimestamp] maps in increasing order; the
    examples use such numerals and strings that [float] rejects. *)
Definition numeral_float : PyFloat := {|
  float := Z;
  float_of_str := numeral;
  float_bool := λ z, negb (z =? 0)%Z;
  fromtimestamp := λ z, Ok z
|}.

(** ** Notions used by the statements *)

(** The counter after the increments of a list of events. *)
Definition tally (evs : list event) (seen : Counter) : Counter :=
  foldl (λ s e, incr e.2 s) seen evs.

(** Every stored count is positive. *)
Definition positive (seen : Counter) : Prop :=
  ∀ k v, seen !! k = Some v → 0 < v.

(** Every key is below [n]. *)
Definition keys_below (n : nat) (seen : Counter) : Prop :=
  ∀ k, is_Some (seen !! k) → k < n.

(** The time and the node index of a triple. *)
Definition triple_key (tr : triple) : event := tr.1.

(** ** Example inputs *)

(** A [node] element with a name, both timestamps and one [rich_text]
    child. *)
Definition text_node (name created modified body : string) : element :=
  Element "node"
    [("name", name); ("ts_creation", created); ("ts_lastsave", modified)]
    None
    [Element "rich_text" [] (Some body) []].

(** A root with the two children A (created [s1], modified [s1], text
    hello) and B (created [s2], modified [s3], text world). *)
Definition example_tree (s1 s2 s3 : string) : element :=
  Element "cherrytree" [] None
    [text_node "A" s1 s1 "hello"; text_node "B" s2 s3 "world"].

(** The entries of a run that raised nothing. *)
Definition entries_of (r : res (list (Entry * Counter)))
    : list (Entry * Counter) :=
  match r with
  | Ok l => l
  | Raise _ => []
  end.

Definition example_entries : list (Entry * Counter) :=
  entries_of (get_documents_by_time (H := numeral_float) 100%Z
                (example_tree "1" "2" "3")).

(** A top-level node as the flattening produces it. *)
Definition org_node (name body : string) (created modified : datetime) : Node :=
  mkNode (Some name) ("* " +:+ name +:+ nl) (body +:+ nl) created modified.

(** The nodes that [example_tree] flattens to. *)
Definition node_A (t1 : datetime) : Node := org_node "A" "hello" t1 t1.
Definition node_B (t2 t3 : datetime) : Node := org_node "B" "world" t2 t3.

(** What an entry shows to [commit_documents_by_time]: its time, the name
    of its node, its description and its joined text. *)
Definition summary (es : Entry * Counter)
    : datetime * option string * string * res string :=
  (time es.1, name (node es.1), description es.1, join <$> rendered es).

(** The three entries that the specification's example expects of
    [example_tree] at the times 1, 2 and 3. *)
Definition expected_summaries
    : list (datetime * option string * string * res string) :=
  [ (1%Z, Some "A", EmptyString, Ok ("* A" +:+ nl +:+ "hello" +:+ nl));
    (2%Z, Some "B", "section: ",
     Ok ("* A" +:+ nl +:+ "hello" +:+ nl +:+ "* B" +:+ nl));
    (3%Z, Some "B", EmptyString,
     Ok ("* A" +:+ nl +:+ "hello" +:+ nl +:+ "* B" +:+ nl +:+ "world" +:+ nl)) ].

(** A node element with the given attributes and no child. *)
Definition bare_node (a : list (string * string)) : element :=
  Element "node" a None [].

Definition tree_of (cs : list element) : element :=
  Element "cherrytree" [] None cs.

(** One node, created and modified at the same time. *)
Definition single_tree : element :=
  tree_of [text_node "A" "1" "1" "hello"].

(** Two nodes whose events alternate: A is created at 1 and modified at 3,
    B is created at 2 and modified at 4. *)
Definition interleaved_tree : element :=
  tree_of [text_node "A" "1" "3" "hello"; text_node "B" "2" "4" "world"].

(** The counter the specification describes for the triple of a run: the
    increments of the events up to the end of the run, each once. *)
Definition counts_through (evs : list event) : Counter := tally evs ∅.

(** The number of events of node [k] in a list of events. *)
Definition events_of_node (k : nat) (evs : list event) : nat :=
  length (filter (λ e : event, e.2 = k) evs).

(** ** The elements a flattening visits *)

(** The results of [f] on the children with the tag [node], in order. *)
Definition each_node {A} (f : element → list A) : list element → list A :=
  fix each (l : list element) : list A :=
    match l with
    | [] => []
    | child :: l' =>
        if decide (tag child = "node") then f child ++ each l' else each l'
    end.

(** The elements that [render_node] visits from [e], in pre-order, each
    with its depth: [e] itself, then the subtrees of its children with the
    tag [node]. *)
Fixpoint visited (level : nat) (e : element) : list (nat * element) :=
  match e with
  | Element _ _ _ cs => (level, e) :: each_node (visited (S level)) cs
  end.

(** The elements that [render_nodes] visits: every child of the root, of
    any tag, at depth 1, with its subtree. *)
Definition visited_from_root (root : element) : list (nat * element) :=
  children root ≫= visited 1.

(** The name, the header and the text that the flattening gives to an
    element at depth [d]. *)
Definition rendered_as (n : Node) (de : nat * element) : Prop :=
  name n = get (attrib de.2) "name" ∧
  header n = stars de.1 +:+ " " +:+ format_str (get (attrib de.2) "name") +:+ nl ∧
  text n = rich_text (iterchildren "rich_text" (children de.2)).

(** Both timestamp attributes of an element are read without an
    exception. *)
Definition timestamps_parse `{PyFloat} (e : element) : Prop :=
  (∃ c, parse_date (get (attrib e) "ts_creation") = Ok c) ∧
  (∃ m, parse_date (get (attrib e) "ts_lastsave") = Ok m).

(** No asterisk at the beginning of a line of [s]; [bol] says that [s]
    starts at the beginning of a line. *)
Fixpoint no_leading_asterisk (bol : bool) (s : string) : bool :=
  match s with
  | EmptyString => true
  | String c s' =>
      negb (bol && Ascii.eqb c "*"%char)
      && no_leading_asterisk (Ascii.eqb c "010"%char) s'
  end.

(** A tree with a nested node: A (created 1, modified 2, text [*a])
    has the child B without timestamps of its own; C follows A. *)
Definition nested_tree : element :=
  tree_of
    [ Element "node"
        [("name", "A"); ("ts_creation", "1"); ("ts_lastsave", "2")] None
        [ Element "rich_text" [] (Some "*a ") [];
          bare_node [("name", "B"); ("ts_creation", "0"); ("ts_lastsave", "0")] ];
      bare_node [("name", "C"); ("ts_creation", "3"); ("ts_lastsave", "0")] ].

(** The nodes that [nested_tree] flattens to at the time 9. *)
Definition nested_nodes : list Node :=
  [ mkNode (Some "A") ("* A" +:+ nl) ("\ast{}a" +:+ nl) 1 2;
    mkNode (Some "B") ("** B" +:+ nl) EmptyString 1 2;
    mkNode (Some "C") ("* C" +:+ nl) EmptyString 3 9 ].

(** A tree whose nodes all have the creation timestamp zero. *)
Definition untimed_tree : element :=
  tree_of
    [ Element "node"
        [("name", "A"); ("ts_creation", "0"); ("ts_lastsave", "2")] None
        [ bare_node [("name", "B"); ("ts_creation", "0"); ("ts_lastsave", "0")] ] ].

(** The nodes that [untimed_tree] flattens to at the time 9. *)
Definition untimed_nodes : list Node :=
  [ mkNode (Some "A") ("* A" +:+ nl) EmptyString 9 2;
    mkNode (Some "B") ("** B" +:+ nl) EmptyString 9 2 ].

(** The whole document: the header and the text of every node, in the
    order of the nodes. *)
Definition full_document (nodes : list Node) : list string :=
  n ← nodes; [header n; text n].

(** A child that contributes nothing to the text: its text is [None] or
    empty. *)
Definition no_fragment (c : element) : Prop :=
  elem_text c = None ∨ elem_text c = Some EmptyString.

(** * Properties *)

(** ** The exception monad *)

Lemma bind_Ok {A B} (m : res A) (k : A → res B) (b : B) :
  m ≫= k = Ok b ↔ ∃ a, m = Ok a ∧ k a = Ok b.
Proof.
  destruct m as [a|e]; simpl; split.
  - intros Hk. by exists a.
  - by intros (a' & [= <-] & Hk).
  - done.
  - by intros (a' & ? & ?).
Qed.

Lemma traverse_Ok {A B} (f : A → res B) (l : list A) (ys : list B) :
  traverse f l = Ok ys ↔ Forall2 (λ x y, f x = Ok y) l ys.
Proof.
  revert ys. induction l as [|x l IH]; intros ys; simpl.
  - split.
    + intros [= <-]. constructor.
    + by intros ->%Forall2_nil_inv_l.
  - split.
    + intros (y & Hy & (ys' & Hys & [= <-])%bind_Ok)%bind_Ok.
      constructor; [done|]. by apply IH.
    + intros (y & ys' & Hy & Hys & ->)%Forall2_cons_inv_l.
      apply bind_Ok. exists y. split; [done|].
      apply bind_Ok. exists ys'. split; [by apply IH|done].
Qed.

Lemma traverse_total {A B} (f : A → res B) (l : list A) :
  Forall (λ x, ∃ y, f x = Ok y) l → ∃ ys, traverse f l = Ok ys.
Proof.
  induction 1 as [|x l [y Hy] _ [ys Hys]]; simpl.
  - by eexists.
  - rewrite Hy. simpl. rewrite Hys. simpl. by eexists.
Qed.

(** ** The counter *)

Lemma count_incr_eq (k : nat) (seen : Counter) :
  count (incr k seen) k = count seen k + 1.
Proof. unfold incr, count at 1. by rewrite lookup_insert_eq. Qed.

Lemma count_incr_ne (k j : nat) (seen : Counter) :
  k ≠ j → count (incr k seen) j = count seen j.
Proof. intros Hne. unfold incr, count at 1 3. by rewrite lookup_insert_ne. Qed.

Lemma count_incr_le (k j : nat) (seen : Counter) :
  count seen j ≤ count (incr k seen) j.
Proof.
  destruct (decide (k = j)) as [->|Hne].
  - rewrite count_incr_eq. lia.
  - by rewrite count_incr_ne.
Qed.

Lemma positive_empty : positive ∅.
Proof. intros k v. by rewrite lookup_empty. Qed.

Lemma positive_incr (k : nat) (seen : Counter) :
  positive seen → positive (incr k seen).
Proof.
  intros Hp j v. unfold incr. rewrite lookup_insert.
  case_decide; [intros [= <-]; lia | apply Hp].
Qed.

Lemma keys_below_empty (n : nat) : keys_below n ∅.
Proof. intros k. rewrite lookup_empty. by intros [? ?]. Qed.

Lemma keys_below_incr (n k : nat) (seen : Counter) :
  k < n → keys_below n seen → keys_below n (incr k seen).
Proof.
  intros Hk Hb j. unfold incr. rewrite lookup_insert.
  case_decide; [by subst | apply Hb].
Qed.

Lemma count_pos_lookup (seen : Counter) (k : nat) :
  0 < count seen k → ∃ v, seen !! k = Some v ∧ 0 < v.
Proof.
  unfold count. destruct (seen !! k) as [v|]; simpl; [eauto | lia].
Qed.

(** ** The scan *)

Lemma scan_cons (t : datetime) (node_id : nat) (evs : list event)
    (last_t : datetime) (last_id : nat) (seen : Counter) :
  scan ((t, node_id) :: evs) last_t last_id seen =
  (if decide (node_id ≠ last_id)
   then [(last_t, last_id, incr node_id seen)] else [])
  ++ scan evs t node_id (incr node_id seen).
Proof. reflexivity. Qed.

Lemma tally_positive (evs : list event) (seen : Counter) :
  positive seen → positive (tally evs seen).
Proof.
  revert seen. induction evs as [|e evs IH]; intros seen Hp; simpl; [done|].
  apply IH. by apply positive_incr.
Qed.

Lemma tally_keys_below (n : nat) (evs : list event) (seen : Counter) :
  Forall (λ e, e.2 < n) evs → keys_below n seen → keys_below n (tally evs seen).
Proof.
  intros Hevs. revert seen.
  induction Hevs as [|e evs He _ IH]; intros seen Hb; simpl; [done|].
  apply IH. by apply keys_below_incr.
Qed.

Lemma tally_count_le (evs : list event) (seen : Counter) (k : nat) :
  count seen k ≤ count (tally evs seen) k.
Proof.
  revert seen. induction evs as [|e evs IH]; intros seen; simpl; [done|].
  etrans; [apply (count_incr_le e.2)|apply IH].
Qed.

Lemma tally_count_elem (evs : list event) (seen : Counter) (e : event) :
  e ∈ evs → 0 < count (tally evs seen) e.2.
Proof.
  revert seen. induction evs as [|e' evs IH]; intros seen Hin.
  - by apply elem_of_nil in Hin.
  - apply elem_of_cons in Hin as [->|Hin]; simpl.
    + pose proof (tally_count_le evs (incr e'.2 seen) e'.2) as Hle.
      rewrite count_incr_eq in Hle. lia.
    + by apply IH.
Qed.

(** Every yielded counter content is the initial content after the
    increments of a prefix of the events. *)
Lemma scan_stores (evs : list event) (last_t : datetime) (last_id : nat)
    (seen : Counter) :
  Forall (λ tr : triple, ∃ k, tr.2 = tally (take k evs) seen)
         (scan evs last_t last_id seen).
Proof.
  revert last_t last_id seen.
  induction evs as [|[t node_id] evs IH]; intros last_t last_id seen.
  - simpl. constructor; [|constructor]. by exists 0.
  - rewrite scan_cons. apply Forall_app. split.
    + case_decide; constructor; [|constructor]. by exists 1.
    + eapply Forall_impl; [apply IH|].
      intros tr [k Hk]. by exists (S k).
Qed.

Lemma scan_last (evs : list event) (last_t : datetime) (last_id : nat)
    (seen : Counter) :
  ∃ t node_id,
    last (scan evs last_t last_id seen) = Some (t, node_id, tally evs seen).
Proof.
  revert last_t last_id seen.
  induction evs as [|[t node_id] evs IH]; intros last_t last_id seen.
  - simpl. by eexists _, _.
  - rewrite scan_cons.
    destruct (IH t node_id (incr node_id seen)) as (t' & id' & Hlast).
    exists t', id'. rewrite last_app, Hlast. done.
Qed.

(** The yielded times and indices are events of the list, or the initial
    state. *)
Lemma scan_keys (evs : list event) (last_t : datetime) (last_id : nat)
    (seen : Counter) :
  triple_key <$> scan evs last_t last_id seen `sublist_of`
  (last_t, last_id) :: evs.
Proof.
  revert last_t last_id seen.
  induction evs as [|[t node_id] evs IH]; intros last_t last_id seen.
  - simpl. done.
  - rewrite scan_cons, fmap_app. case_decide; simpl.
    + apply sublist_skip, IH.
    + apply sublist_cons, IH.
Qed.

(** ** Events and their order *)

Global Instance event_le_total : Total event_le.
Proof. intros [t1 i1] [t2 i2]. unfold event_le. simpl. lia. Qed.

Global Instance event_le_trans : Transitive event_le.
Proof. intros [t1 i1] [t2 i2] [t3 i3]. unfold event_le. simpl. lia. Qed.

Global Instance event_le_antisymm : AntiSymm (=) event_le.
Proof.
  intros [t1 i1] [t2 i2]. unfold event_le. simpl. intros H1 H2.
  f_equal; lia.
Qed.

Global Instance item_le_total : Total item_le.
Proof. intros [k1 v1] [k2 v2]. unfold item_le. simpl. lia. Qed.

Lemma elem_of_events (nodes : list Node) (t : datetime) (i : nat) :
  (t, i) ∈ events nodes ↔
  ∃ n, nodes !! i = Some n ∧ (t = created n ∨ t = modified n).
Proof.
  unfold events, enumerate. rewrite list_elem_of_bind. split.
  - intros ([j n] & Hin & (k & n' & [= -> ->] & Hk)%elem_of_lookup_imap).
    rewrite !elem_of_cons in Hin.
    destruct Hin as [[= -> ->]|[[= -> ->]|Hin]].
    + exists n'. split; [done|by left].
    + exists n'. split; [done|by right].
    + by apply elem_of_nil in Hin.
  - intros (n & Hn & Ht). exists (i, n). split.
    + rewrite !elem_of_cons. destruct Ht as [->| ->]; auto.
    + apply elem_of_lookup_imap. by exists i, n.
Qed.

Lemma times_Permutation (nodes : list Node) : times nodes ≡ₚ events nodes.
Proof. apply merge_sort_Permutation. Qed.

Lemma elem_of_times (nodes : list Node) (t : datetime) (i : nat) :
  (t, i) ∈ times nodes ↔
  ∃ n, nodes !! i = Some n ∧ (t = created n ∨ t = modified n).
Proof. by rewrite times_Permutation, elem_of_events. Qed.

Lemma times_StronglySorted (nodes : list Node) :
  StronglySorted event_le (times nodes).
Proof. apply StronglySorted_merge_sort; apply _. Qed.

Lemma times_ids_below (nodes : list Node) :
  Forall (λ e : event, e.2 < length nodes) (times nodes).
Proof.
  apply Forall_forall. intros [t i] (n & Hn & _)%elem_of_times.
  simpl. by eapply lookup_lt_Some.
Qed.

Lemma times_nonempty (n : Node) (ns : list Node) :
  ∃ e evs, times (n :: ns) = e :: evs.
Proof.
  assert ((created n, 0) ∈ times (n :: ns)) as Hin.
  { apply elem_of_times. exists n. split; [done|by left]. }
  destruct (times (n :: ns)) as [|e evs]; [by apply elem_of_nil in Hin|].
  by exists e, evs.
Qed.

(** Sorting a list that is in order leaves it as it is. *)
Lemma merge_sort_sorted (evs : list event) :
  Sorted event_le evs → merge_sort event_le evs = evs.
Proof.
  intros Hs. apply (Sorted_unique event_le); [|done|].
  - apply Sorted_merge_sort; apply _.
  - apply merge_sort_Permutation.
Qed.

Lemma StronglySorted_sublist {A} (R : relation A) (l k : list A) :
  l `sublist_of` k → StronglySorted R k → StronglySorted R l.
Proof.
  induction 1 as [|x l k Hsub IH|x l k Hsub IH]; intros Hk.
  - constructor.
  - apply StronglySorted_inv in Hk as [Hk Hx]. constructor; [by apply IH|].
    rewrite Forall_forall in Hx |- *. intros y Hy. apply Hx.
    by eapply elem_of_sublist.
  - apply StronglySorted_inv in Hk as [Hk _]. by apply IH.
Qed.

(** ** Entries *)

Lemma entry_of_Ok (nodes : list Node) (tr : triple) (es : Entry * Counter) :
  entry_of nodes tr = Ok es →
  time es.1 = tr.1.1 ∧ nodes !! tr.1.2 = Some (node es.1) ∧ es.2 = tr.2 ∧
  entry_text es.1 = document nodes ∧
  description es.1 =
    (if decide (count tr.2 tr.1.2 = 2) then EmptyString else "section: ").
Proof.
  destruct tr as [[t node_id] counts]. unfold entry_of. simpl.
  destruct (nodes !! node_id) as [n|]; [|done].
  by intros [= <-].
Qed.

Lemma entry_of_total (nodes : list Node) (tr : triple) :
  tr.1.2 < length nodes → ∃ es, entry_of nodes tr = Ok es.
Proof.
  destruct tr as [[t node_id] counts]. simpl.
  intros [n Hn]%lookup_lt_is_Some. unfold entry_of. rewrite Hn. by eexists.
Qed.

Lemma documents_by_time_Ok (nodes : list Node) (entries : list (Entry * Counter)) :
  documents_by_time nodes = Ok entries →
  ∃ t0 id0 evs, times nodes = (t0, id0) :: evs ∧
    Forall2 (λ tr es, entry_of nodes tr = Ok es)
            (scan ((t0, id0) :: evs) t0 id0 (incr id0 ∅)) entries.
Proof.
  unfold documents_by_time.
  intros (trs & Htrs & Hentries%traverse_Ok)%bind_Ok.
  unfold no_consecutive_duplicates in Htrs.
  destruct (times nodes) as [|[t0 id0] evs]; [done|].
  injection Htrs as <-. by exists t0, id0, evs.
Qed.

(** The scan of a tree with at least one node yields entries: no exception
    is raised. *)
Lemma documents_by_time_total (n : Node) (ns : list Node) :
  ∃ entries, documents_by_time (n :: ns) = Ok entries.
Proof.
  destruct (times_nonempty n ns) as ([t0 id0] & evs & Htimes).
  unfold documents_by_time, no_consecutive_duplicates. rewrite Htimes. simpl.
  apply traverse_total.
  pose proof (times_ids_below (n :: ns)) as Hids. rewrite Htimes in Hids.
  rewrite Forall_forall. intros tr Htr. apply entry_of_total.
  pose proof (scan_keys ((t0, id0) :: evs) t0 id0 (incr id0 ∅)) as Hsub.
  assert (triple_key tr ∈ (t0, id0) :: (t0, id0) :: evs) as Hin.
  { eapply elem_of_sublist; [|done]. by apply list_elem_of_fmap_2. }
  rewrite Forall_forall in Hids.
  apply elem_of_cons in Hin as [Heq|Hin].
  - unfold triple_key in Heq. rewrite Heq. apply (Hids (t0, id0)). by left.
  - by apply (Hids (triple_key tr)).
Qed.

(** The times of the entries, in the order of the entries. *)
Lemma entries_times (nodes : list Node) (trs : list triple)
    (entries : list (Entry * Counter)) :
  Forall2 (λ tr es, entry_of nodes tr = Ok es) trs entries →
  (λ es : Entry * Counter, time es.1) <$> entries = (λ tr, (triple_key tr).1) <$> trs.
Proof.
  induction 1 as [|tr es trs entries Hes _ IH]; [done|].
  rewrite !fmap_cons. apply entry_of_Ok in Hes as (Ht & _).
  rewrite Ht. by f_equal.
Qed.

Lemma entries_times_sorted (nodes : list Node) (entries : list (Entry * Counter)) :
  documents_by_time nodes = Ok entries →
  StronglySorted Z.le ((λ es : Entry * Counter, time es.1) <$> entries).
Proof.
  intros (t0 & id0 & evs & Htimes & Hentries)%documents_by_time_Ok.
  rewrite (entries_times _ _ _ Hentries).
  pose proof (times_StronglySorted nodes) as Hsorted. rewrite Htimes in Hsorted.
  assert (StronglySorted event_le ((t0, id0) :: (t0, id0) :: evs)) as Hs2.
  { constructor; [done|]. constructor.
    - right. simpl. lia.
    - by apply StronglySorted_inv in Hsorted as [_ ?]. }
  pose proof (StronglySorted_sublist _ _ _
    (scan_keys ((t0, id0) :: evs) t0 id0 (incr id0 ∅)) Hs2) as Hkeys.
  rewrite (list_fmap_compose triple_key fst).
  eapply StronglySorted_fmap; [|exact Hkeys].
  intros [t1 i1] [t2 i2]. unfold event_le. simpl. lia.
Qed.

Lemma StronglySorted_consecutive {A} (R : relation A) (l : list A)
    (i : nat) (x y : A) :
  StronglySorted R l → l !! i = Some x → l !! S i = Some y → R x y.
Proof.
  intros Hs. revert i. induction Hs as [|z l Hs IH Hz]; intros i Hx Hy.
  - done.
  - destruct i as [|i]; simpl in *.
    + injection Hx as ->. rewrite Forall_forall in Hz. apply Hz.
      by eapply list_elem_of_lookup_2.
    + by eapply IH.
Qed.

(** ** The counter contents the entries carry *)

Lemma entries_seen (nodes : list Node) (entries : list (Entry * Counter)) :
  documents_by_time nodes = Ok entries →
  ∃ e evs, times nodes = e :: evs ∧
    Forall (λ es : Entry * Counter,
              ∃ k, es.2 = tally (take k (e :: evs)) (incr e.2 ∅)) entries ∧
    final_seen entries = tally (e :: evs) (incr e.2 ∅).
Proof.
  intros (t0 & id0 & evs & Htimes & Hentries)%documents_by_time_Ok.
  exists (t0, id0), evs. split; [done|]. split.
  - eapply Forall2_Forall_r; [exact Hentries|].
    eapply Forall_impl; [apply scan_stores|].
    intros tr [k Hk] es (_ & _ & Hseen & _)%entry_of_Ok.
    exists k. by rewrite Hseen.
  - unfold final_seen.
    destruct (scan_last ((t0, id0) :: evs) t0 id0 (incr id0 ∅))
      as (t & node_id & Hlast).
    apply Forall2_last in Hentries. rewrite Hlast in Hentries.
    inversion Hentries as [tr es Hes Htr Hlast'|]; subst.
    apply entry_of_Ok in Hes as (_ & _ & Hseen & _).
    destruct es as [e seen]. simpl in Hseen. by rewrite Hseen.
Qed.

Lemma initial_positive (k : nat) : positive (incr k ∅).
Proof. apply positive_incr, positive_empty. Qed.

Lemma entries_seen_positive (nodes : list Node) (entries : list (Entry * Counter)) :
  documents_by_time nodes = Ok entries →
  Forall (λ es : Entry * Counter, positive es.2) entries ∧
  positive (final_seen entries).
Proof.
  intros ([t0 id0] & evs & _ & Hall & ->)%entries_seen. split.
  - eapply Forall_impl; [exact Hall|]. intros es [k ->].
    apply tally_positive, initial_positive.
  - apply tally_positive, initial_positive.
Qed.

Lemma entries_seen_keys (nodes : list Node) (entries : list (Entry * Counter)) :
  documents_by_time nodes = Ok entries →
  Forall (λ es : Entry * Counter, keys_below (length nodes) es.2) entries ∧
  keys_below (length nodes) (final_seen entries).
Proof.
  intros ([t0 id0] & evs & Htimes & Hall & ->)%entries_seen.
  pose proof (times_ids_below nodes) as Hids. rewrite Htimes in Hids.
  assert (keys_below (length nodes) (incr id0 ∅)) as Hinit.
  { apply keys_below_incr; [|apply keys_below_empty].
    by apply Forall_cons in Hids as [? _]. }
  split.
  - eapply Forall_impl; [exact Hall|]. intros es [k ->].
    apply tally_keys_below; [|done]. by apply Forall_take.
  - by apply tally_keys_below.
Qed.

(** ** The renderer *)

Lemma elem_of_sorted_items (seen : Counter) (k v : nat) :
  (k, v) ∈ sorted_items seen ↔ seen !! k = Some v.
Proof.
  unfold sorted_items. by rewrite merge_sort_Permutation, elem_of_map_to_list.
Qed.

Lemma elem_of_concat {A} (x : A) (ls : list (list A)) :
  x ∈ concat ls ↔ ∃ l, x ∈ l ∧ l ∈ ls.
Proof.
  induction ls as [|l ls IH]; simpl.
  - split; [by intros ?%elem_of_nil|]. by intros (l & _ & ?%elem_of_nil).
  - rewrite elem_of_app, IH. split.
    + intros [Hx|(l' & Hx & Hl')].
      * exists l. split; [done|by left].
      * exists l'. split; [done|by right].
    + intros (l' & Hx & [->|Hl']%elem_of_cons); [by left|].
      right. by exists l'.
Qed.

Lemma document_item_total (nodes : list Node) (k v : nat) :
  0 < v → k < length nodes → ∃ l, document_item nodes (k, v) = Ok l.
Proof.
  intros Hv [n Hn]%lookup_lt_is_Some. unfold document_item.
  case_decide; [lia|]. rewrite Hn. by eexists.
Qed.

(** On a counter content with positive counts and keys that are node
    indices the renderer raises nothing: neither the assertion nor the
    lookup fails. *)
Lemma document_total (nodes : list Node) (seen : Counter) :
  positive seen → keys_below (length nodes) seen →
  ∃ ls, document nodes seen = Ok ls.
Proof.
  intros Hp Hb. unfold document.
  destruct (traverse_total (document_item nodes) (sorted_items seen))
    as [ls Hls].
  - rewrite Forall_forall. intros [k v] Hkv%elem_of_sorted_items.
    apply document_item_total; [by eapply Hp|]. apply Hb. by eexists.
  - rewrite Hls. simpl. by eexists.
Qed.

(** The header of every node with a key in the counter is in the document. *)
Lemma document_header (nodes : list Node) (seen : Counter) (ls : list string)
    (i : nat) (n : Node) :
  document nodes seen = Ok ls → is_Some (seen !! i) → nodes !! i = Some n →
  header n ∈ ls.
Proof.
  unfold document. intros (lss & Hlss%traverse_Ok & [= <-])%bind_Ok [v Hv] Hn.
  apply elem_of_sorted_items, list_elem_of_lookup_1 in Hv as [j Hj].
  destruct (Forall2_lookup_l _ _ _ _ _ Hlss Hj) as (l & Hl & Hitem).
  apply elem_of_concat. exists l. split; [|by eapply list_elem_of_lookup_2].
  unfold document_item in Hitem. case_decide; [done|]. rewrite Hn in Hitem.
  injection Hitem as <-. by left.
Qed.

(** The lines of a document: headers of the nodes with a key, and texts of
    the nodes whose count is two. *)
Lemma document_lines (nodes : list Node) (seen : Counter) (ls : list string)
    (s : string) :
  document nodes seen = Ok ls →
  s ∈ ls ↔
  ∃ i v n, seen !! i = Some v ∧ nodes !! i = Some n ∧
    (s = header n ∨ (v = 2 ∧ is_empty (text n) = false ∧ s = text n)).
Proof.
  unfold document. intros (lss & Hlss%traverse_Ok & [= <-])%bind_Ok.
  rewrite elem_of_concat. split.
  - intros (l & Hs & [j Hj]%list_elem_of_lookup_1).
    destruct (Forall2_lookup_r _ _ _ _ _ Hlss Hj) as ([i v] & Hiv & Hitem).
    apply list_elem_of_lookup_2, elem_of_sorted_items in Hiv.
    unfold document_item in Hitem. case_decide; [done|].
    destruct (nodes !! i) as [n|] eqn:Hn; [|done].
    injection Hitem as <-. exists i, v, n. split; [done|]. split; [done|].
    apply elem_of_cons in Hs as [->|Hs]; [by left|]. right.
    case_decide; [|by apply elem_of_nil in Hs].
    destruct (is_empty (text n)); [by apply elem_of_nil in Hs|].
    apply list_elem_of_singleton in Hs. done.
  - intros (i & v & n & Hv & Hn & Hs).
    apply elem_of_sorted_items, list_elem_of_lookup_1 in Hv as [j Hj].
    destruct (Forall2_lookup_l _ _ _ _ _ Hlss Hj) as (l & Hl & Hitem).
    exists l. split; [|by eapply list_elem_of_lookup_2].
    unfold document_item in Hitem. case_decide; [done|]. rewrite Hn in Hitem.
    injection Hitem as <-.
    destruct Hs as [->|(-> & Hne & ->)]; [by left|]. right.
    rewrite decide_True by done. rewrite Hne. by left.
Qed.

(** ** The whole generator *)

Lemma get_documents_by_time_Ok `{PyFloat} (now : datetime) (root : element)
    (entries : list (Entry * Counter)) :
  get_documents_by_time now root = Ok entries ↔
  ∃ nodes, parse_nodes now root = Ok nodes ∧ documents_by_time nodes = Ok entries.
Proof. unfold get_documents_by_time. apply bind_Ok. Qed.

Lemma commit_dates (entries : list (Entry * Counter)) (commits : list Commit) :
  commit_documents_by_time entries = Ok commits →
  author_date <$> commits = (λ es : Entry * Counter, time es.1) <$> entries.
Proof.
  unfold commit_documents_by_time. intros Hall%traverse_Ok.
  induction Hall as [|[e seen] c entries commits Hc _ IH]; [done|].
  rewrite !fmap_cons, IH. f_equal.
  apply bind_Ok in Hc as (ls & _ & [= <-]). done.
Qed.

(** C8.  A root without children flattens to no node; the scan then
    advances an empty iterator and the generator raises [RuntimeError]
    instead of yielding an empty sequence of entries. *)
Theorem empty_tree_raises_RuntimeError `{PyFloat} (now : datetime)
    (tg : string) (a : list (string * string)) (tx : option string) :
  parse_nodes now (Element tg a tx []) = Ok [] ∧
  get_documents_by_time now (Element tg a tx []) = Raise RuntimeError.
Proof. split; reflexivity. Qed.

(** C7.  The entries are yielded in time order: the time of an entry is at
    most the time of the next one, and these are the author dates of the
    commits requested, in the same order. *)
Theorem entries_in_time_order `{PyFloat} (now : datetime) (root : element)
    (entries : list (Entry * Counter)) (commits : list Commit) (i : nat)
    (a b : Entry * Counter) :
  get_documents_by_time now root = Ok entries →
  commit_documents_by_time entries = Ok commits →
  entries !! i = Some a →
  entries !! S i = Some b →
  (time a.1 ≤ time b.1)%Z ∧
  author_date <$> commits !! i = Some (time a.1) ∧
  author_date <$> commits !! S i = Some (time b.1).
Proof.
  intros (nodes & _ & Hentries)%get_documents_by_time_Ok Hcommits Ha Hb.
  apply entries_times_sorted in Hentries. split.
  - eapply (StronglySorted_consecutive _ _ i); [exact Hentries| |].
    + by rewrite list_lookup_fmap, Ha.
    + by rewrite list_lookup_fmap, Hb.
  - apply commit_dates in Hcommits.
    rewrite <- !list_lookup_fmap, Hcommits, !list_lookup_fmap, Ha, Hb. done.
Qed.

Lemma entries_in_time_order_witness :
  ∃ commits a b,
    commit_documents_by_time example_entries = Ok commits ∧
    example_entries !! 0 = Some a ∧ example_entries !! 1 = Some b ∧
    (time a.1 ≤ time b.1)%Z ∧
    author_date <$> commits !! 0 = Some (time a.1) ∧
    author_date <$> commits !! 1 = Some (time b.1).
Proof.
  eexists _, _, _.
  split; [reflexivity|]. split; [reflexivity|]. split; [reflexivity|].
  eapply (entries_in_time_order (H := numeral_float) 100%Z
            (example_tree "1" "2" "3") example_entries);
    reflexivity.
Defined.

(** The text of every entry is the renderer on the nodes of the tree. *)
Lemma entries_text (nodes : list Node) (entries : list (Entry * Counter))
    (es : Entry * Counter) :
  documents_by_time nodes = Ok entries → es ∈ entries →
  entry_text es.1 = document nodes.
Proof.
  intros (t0 & id0 & evs & _ & Hall)%documents_by_time_Ok
    [j Hj]%list_elem_of_lookup_1.
  destruct (Forall2_lookup_r _ _ _ _ _ Hall Hj) as (tr & _ & Htr).
  by apply entry_of_Ok in Htr as (_ & _ & _ & ? & _).
Qed.

(** Whenever the text of an entry is read, the renderer raises nothing. *)
Lemma entries_render (nodes : list Node) (entries : list (Entry * Counter))
    (es : Entry * Counter) :
  documents_by_time nodes = Ok entries → es ∈ entries →
  (∃ ls, rendered es = Ok ls) ∧ (∃ ls, rendered_after entries es.1 = Ok ls).
Proof.
  intros Hentries Hes.
  destruct (entries_seen_positive _ _ Hentries) as [Hpos Hfinal].
  destruct (entries_seen_keys _ _ Hentries) as [Hkeys Hkfinal].
  rewrite Forall_forall in Hpos, Hkeys.
  unfold rendered, rendered_after.
  rewrite (entries_text _ _ _ Hentries Hes). split.
  - apply document_total; [by apply Hpos|by apply Hkeys].
  - by apply document_total.
Qed.

(** C9.  Every counter content the scan hands to the renderer holds
    positive counts only, whether the text is read when the entry is
    yielded or after the generator is exhausted; the renderer then raises
    nothing, in particular not the assertion. *)
Theorem seen_counts_positive `{PyFloat} (now : datetime) (root : element)
    (entries : list (Entry * Counter)) (es : Entry * Counter) :
  get_documents_by_time now root = Ok entries →
  es ∈ entries →
  positive es.2 ∧ positive (final_seen entries) ∧
  (∃ ls, rendered es = Ok ls) ∧
  (∃ ls, rendered_after entries es.1 = Ok ls).
Proof.
  intros (nodes & _ & Hentries)%get_documents_by_time_Ok Hes.
  destruct (entries_seen_positive _ _ Hentries) as [Hpos Hfinal].
  destruct (entries_seen_keys _ _ Hentries) as [Hkeys Hkfinal].
  rewrite Forall_forall in Hpos, Hkeys.
  assert (entry_text es.1 = document nodes) as Htext.
  { apply documents_by_time_Ok in Hentries as (t0 & id0 & evs & _ & Hall).
    apply list_elem_of_lookup_1 in Hes as [j Hj].
    destruct (Forall2_lookup_r _ _ _ _ _ Hall Hj) as (tr & _ & Htr).
    by apply entry_of_Ok in Htr as (_ & _ & _ & ? & _). }
  split; [by apply Hpos|]. split; [done|].
  unfold rendered, rendered_after. rewrite Htext. split.
  - apply document_total; [by apply Hpos|by apply Hkeys].
  - by apply document_total.
Qed.

Lemma seen_counts_positive_witness :
  ∃ es, es ∈ example_entries ∧
    positive es.2 ∧ positive (final_seen example_entries) ∧
    (∃ ls, rendered es = Ok ls) ∧
    (∃ ls, rendered_after example_entries es.1 = Ok ls).
Proof.
  eexists. split; [left|].
  eapply (seen_counts_positive (H := numeral_float) 100%Z
            (example_tree "1" "2" "3") example_entries);
    [reflexivity|left].
Defined.

(** C10.  A tree with at least one node yields entries, and the document of
    the last entry, read after the generator is exhausted, contains the
    header of every flattened node. *)
Theorem last_document_has_every_header `{PyFloat} (now : datetime)
    (root : element) (nodes : list Node) (n : Node) :
  parse_nodes now root = Ok nodes →
  n ∈ nodes →
  ∃ entries es ls,
    get_documents_by_time now root = Ok entries ∧
    last entries = Some es ∧
    rendered_after entries es.1 = Ok ls ∧
    header n ∈ ls.
Proof.
  intros Hnodes [i Hi]%list_elem_of_lookup_1.
  destruct nodes as [|n0 ns]; [done|].
  destruct (documents_by_time_total n0 ns) as [entries Hentries].
  assert (get_documents_by_time now root = Ok entries) as Hrun.
  { apply get_documents_by_time_Ok. by exists (n0 :: ns). }
  destruct (entries_seen _ _ Hentries) as (e & evs & Htimes & _ & Hfinal).
  assert (entries ≠ []) as Hne.
  { apply documents_by_time_Ok in Hentries as (t0 & id0 & evs' & _ & Hall).
    intros ->. apply Forall2_nil_inv_r in Hall.
    destruct (scan_last ((t0, id0) :: evs') t0 id0 (incr id0 ∅))
      as (t & k & Hlast).
    by rewrite Hall in Hlast. }
  apply last_is_Some in Hne as [es Hes].
  assert (es ∈ entries) as Hin by by apply last_Some_elem_of.
  destruct (entries_render _ _ _ Hentries Hin) as (_ & ls & Hls).
  exists entries, es, ls. repeat split; [done..|].
  pose proof (entries_text _ _ _ Hentries Hin) as Htext.
  unfold rendered_after in Hls. rewrite Htext in Hls.
  eapply document_header; [exact Hls| |exact Hi].
  rewrite Hfinal, <- Htimes.
  assert ((created n, i) ∈ times (n0 :: ns)) as Hev.
  { apply elem_of_times. exists n. split; [done|by left]. }
  apply (tally_count_elem _ (incr e.2 ∅)) in Hev.
  apply count_pos_lookup in Hev as (v & Hv & _).
  exists v. exact Hv.
Qed.

Lemma last_document_has_every_header_witness :
  ∃ entries es ls,
    get_documents_by_time (H := numeral_float) 100%Z
      (example_tree "1" "2" "3") = Ok entries ∧
    last entries = Some es ∧
    rendered_after entries es.1 = Ok ls ∧
    header (node_B 2 3) ∈ ls.
Proof.
  eapply (last_document_has_every_header (H := numeral_float) 100%Z
            (example_tree "1" "2" "3") [node_A 1; node_B 2 3] (node_B 2 3));
    [reflexivity | right; left].
Defined.

(** ** Runs *)

Lemma runs_cons_head (e : event) (evs : list event) :
  ∃ r rs, runs (e :: evs) = (e :: r) :: rs.
Proof.
  simpl. destruct (runs evs) as [|[|e' r] rs]; [by eexists _, _..|].
  case_decide; by eexists _, _.
Qed.

Lemma runs_cons_cons (e e' : event) (evs : list event) (r : list event)
    (rs : list (list event)) :
  runs (e' :: evs) = r :: rs →
  runs (e :: e' :: evs) =
    if decide (e.2 = e'.2) then (e :: r) :: rs else [e] :: r :: rs.
Proof.
  intros Hruns. destruct (runs_cons_head e' evs) as (r' & rs' & Hhead).
  rewrite Hhead in Hruns. injection Hruns as <- <-.
  change (runs (e :: e' :: evs)) with
    (match runs (e' :: evs) with
     | (e'' :: r) :: rs =>
         if decide (e.2 = e''.2) then (e :: e'' :: r) :: rs
         else [e] :: (e'' :: r) :: rs
     | _ => [[e]]
     end).
  by rewrite Hhead.
Qed.

(** The runs partition the list, in order. *)
Lemma runs_concat (evs : list event) : concat (runs evs) = evs.
Proof.
  induction evs as [|e [|e' evs] IH]; [done..|].
  destruct (runs_cons_head e' evs) as (r & rs & Hhead).
  rewrite (runs_cons_cons _ _ _ _ _ Hhead). rewrite Hhead in IH.
  case_decide; simpl in *; by rewrite IH.
Qed.

(** The events of a run have the same node index. *)
Lemma runs_same_id (evs : list event) :
  Forall (λ r, ∃ e, head r = Some e ∧ Forall (λ e' : event, e'.2 = e.2) r)
         (runs evs).
Proof.
  induction evs as [|e [|e' evs] IH].
  - constructor.
  - repeat constructor. exists e. split; [done|]. by repeat constructor.
  - destruct (runs_cons_head e' evs) as (r & rs & Hhead).
    rewrite (runs_cons_cons _ _ _ _ _ Hhead). rewrite Hhead in IH.
    apply Forall_cons in IH as [(e0 & [= <-] & Hr) Hrs].
    case_decide as Heq.
    + constructor; [|done]. exists e. split; [done|].
      constructor; [done|]. eapply Forall_impl; [exact Hr|].
      intros e1 He1. simpl in He1. by rewrite He1.
    + constructor; [|constructor; [|done]].
      * exists e. split; [done|]. by repeat constructor.
      * by exists e'.
Qed.

(** The runs are maximal: a run and the next one have different node
    indices. *)
Lemma runs_maximal (evs : list event) (i : nat) (r1 r2 : list event)
    (e1 e2 : event) :
  runs evs !! i = Some r1 → runs evs !! S i = Some r2 →
  last r1 = Some e1 → head r2 = Some e2 → e1.2 ≠ e2.2.
Proof.
  revert i r1 r2 e1 e2.
  induction evs as [|e [|e' evs] IH]; intros i r1 r2 e1 e2; [done..|].
  destruct (runs_cons_head e' evs) as (r & rs & Hhead).
  rewrite (runs_cons_cons _ _ _ _ _ Hhead). rewrite Hhead in IH.
  case_decide as Heq.
  - destruct i as [|i]; simpl.
    + intros [= <-] Hr2 Hlast Hh. rewrite last_cons_cons in Hlast.
      by eapply (IH 0).
    + intros Hr1 Hr2. by eapply (IH (S i)).
  - destruct i as [|[|i]]; simpl.
    + intros [= <-] [= <-] [= <-] [= <-]. done.
    + intros [= <-] Hr2. by eapply (IH 0).
    + intros Hr1 Hr2. by eapply (IH (S i)).
Qed.

(** The scan yields one triple per run of [(last_t, last_id) :: evs]: the
    triple carries the last event of its run, and the counter has by then
    received an increment for each event of the run. *)
Lemma scan_runs (evs : list event) (last_t : datetime) (last_id : nat)
    (seen : Counter) :
  ∃ tr trs r rs,
    scan evs last_t last_id seen = tr :: trs ∧
    runs ((last_t, last_id) :: evs) = r :: rs ∧
    last r = Some (triple_key tr) ∧
    length r + count seen last_id ≤ count tr.2 tr.1.2 + 1 ∧
    Forall2 (λ tr r, last r = Some (triple_key tr) ∧
                     length r ≤ count tr.2 tr.1.2) trs rs.
Proof.
  revert last_t last_id seen.
  induction evs as [|[t node_id] evs IH]; intros last_t last_id seen.
  - exists (last_t, last_id, seen), [], [(last_t, last_id)], [].
    repeat split; [simpl; lia|constructor].
  - destruct (IH t node_id (incr node_id seen))
      as (tr & trs & r & rs & Hscan & Hruns & Hlast & Hlen & Hrest).
    rewrite scan_cons, Hscan, (runs_cons_cons _ _ _ _ _ Hruns). simpl snd.
    rewrite count_incr_eq in Hlen.
    assert (r ≠ []) as Hr by (by intros ->).
    destruct (decide (node_id = last_id)) as [->|Hne].
    + rewrite decide_False by (intros ?; done).
      rewrite decide_True by done.
      exists tr, trs, ((last_t, last_id) :: r), rs. repeat split.
      * destruct r; [done|]. by rewrite last_cons_cons.
      * simpl. lia.
      * done.
    + rewrite decide_True by done. rewrite decide_False by done.
      exists (last_t, last_id, incr node_id seen), (tr :: trs),
        [(last_t, last_id)], (r :: rs).
      repeat split.
      * simpl. rewrite count_incr_ne by done. lia.
      * constructor; [|done]. split; [done|]. lia.
Qed.

(** C4.  The scan of the sorted events yields one triple per maximal run.
    The triple carries the last event of its run, hence the time of the
    last event, and the count it holds for the run's node is at least the
    number of events of the run. *)
Theorem triple_carries_last_time_of_run (n : Node) (ns : list Node) :
  ∃ trs,
    no_consecutive_duplicates (times (n :: ns)) = Ok trs ∧
    Forall2 (λ tr r, last r = Some (triple_key tr) ∧
                     length r ≤ count tr.2 tr.1.2)
            trs (runs (times (n :: ns))).
Proof.
  destruct (times_nonempty n ns) as ([t0 id0] & evs & ->).
  exists (scan ((t0, id0) :: evs) t0 id0 (incr id0 ∅)).
  split; [reflexivity|].
  destruct (scan_runs ((t0, id0) :: evs) t0 id0 (incr id0 ∅))
    as (tr & trs & r & rs & -> & Hruns & Hlast & Hlen & Hrest).
  destruct (runs_cons_head (t0, id0) evs) as (r0 & rs0 & Hhead).
  rewrite (runs_cons_cons _ _ _ _ _ Hhead) in Hruns.
  rewrite decide_True in Hruns by done. injection Hruns as <- <-.
  rewrite Hhead. constructor; [|done]. split.
  - by rewrite last_cons_cons in Hlast.
  - rewrite count_incr_eq in Hlen. simpl in Hlen |- *. lia.
Qed.

(** C4 fails as stated: for one node created at 1 and modified at 2 the
    only run is [(1, 0); (2, 0)] and its triple carries the time 2, not the
    time 1 of the first event of the run. *)
Lemma triple_time_not_first_of_run :
  ∃ trs,
    no_consecutive_duplicates (times [org_node "A" "hello" 1 2]) = Ok trs ∧
    runs (times [org_node "A" "hello" 1 2]) = [[(1%Z, 0); (2%Z, 0)]] ∧
    triple_key <$> trs = [(2%Z, 0)] ∧
    ¬ Forall2 (λ tr r, head r = Some (triple_key tr))
        trs (runs (times [org_node "A" "hello" 1 2])).
Proof.
  eexists. split; [reflexivity|]. split; [reflexivity|].
  split; [reflexivity|].
  intros Hall. apply Forall2_cons_1 in Hall as [Hhead _].
  vm_compute in Hhead. discriminate Hhead.
Qed.

(** ** Timestamps *)

Lemma parse_date_absent `{PyFloat} : parse_date None = Raise TypeError.
Proof. reflexivity. Qed.


Lemma parse_date_zero `{PyFloat} (v : option string) :
  parse_date v = Ok None ↔ zero_timestamp v.
Proof.
  unfold parse_date, zero_timestamp. split.
  - destruct v as [s|]; [|done].
    destruct (float_of_str s) as [f|] eqn:Hf; [|done].
    destruct (float_bool f) eqn:Hb.
    + by destruct (fromtimestamp f).
    + intros _. by exists s, f.
  - intros (s & f & -> & -> & ->). done.
Qed.

Lemma render_node_eq `{PyFloat} (tg : string) (a : list (string * string))
    (tx : option string) (cs : list element) (level : nat)
    (default_created default_modified : datetime) :
  render_node (Element tg a tx cs) level default_created default_modified =
  (c ← parse_date (get a "ts_creation");
   m ← parse_date (get a "ts_lastsave");
   rest ← each_child
            (λ child, render_node child (S level)
                        (default default_created c)
                        (default default_modified m)) cs;
   Ok (mkNode (get a "name")
         (stars level +:+ " " +:+ format_str (get a "name") +:+ nl)
         (rich_text (iterchildren "rich_text" cs))
         (default default_created c) (default default_modified m) :: rest)).
Proof. reflexivity. Qed.






(** ** The specification's example *)

Lemma example_tree_nodes `{PyFloat} (now : datetime) (s1 s2 s3 : string)
    (t1 t2 t3 : datetime) :
  parse_date (Some s1) = Ok (Some t1) →
  parse_date (Some s2) = Ok (Some t2) →
  parse_date (Some s3) = Ok (Some t3) →
  parse_nodes now (example_tree s1 s2 s3) = Ok [node_A t1; node_B t2 t3].
Proof.
  intros H1 H2 H3. unfold parse_nodes, example_tree, text_node. simpl children.
  unfold render_nodes. rewrite !render_node_eq. simpl get.
  rewrite H1, H2, H3. reflexivity.
Qed.

Lemma example_times (t1 t2 t3 : datetime) :
  (t1 < t2)%Z → (t2 < t3)%Z →
  times [node_A t1; node_B t2 t3] = [(t1, 0); (t1, 0); (t2, 1); (t3, 1)].
Proof.
  intros H12 H23. unfold times.
  change (events [node_A t1; node_B t2 t3])
    with [(t1, 0); (t1, 0); (t2, 1); (t3, 1)].
  apply merge_sort_sorted.
  repeat constructor; unfold event_le; simpl; lia.
Qed.

(** C1, as the code has it.  The two events of B are adjacent in the
    sorted list and form one run, so the example yields two entries: one
    for A at [t1], and one for B at [t3] with the empty description, whose
    document has the headers of A and B and the text of B, in this
    order. *)
Theorem example_yields_two_entries `{PyFloat} (now : datetime)
    (s1 s2 s3 : string) (t1 t2 t3 : datetime) :
  parse_date (Some s1) = Ok (Some t1) →
  parse_date (Some s2) = Ok (Some t2) →
  parse_date (Some s3) = Ok (Some t3) →
  (t1 < t2)%Z → (t2 < t3)%Z →
  ∃ e1 e2 seen1 seen2 ls2,
    get_documents_by_time now (example_tree s1 s2 s3)
      = Ok [(e1, seen1); (e2, seen2)] ∧
    time e1 = t1 ∧ node e1 = node_A t1 ∧
    time e2 = t3 ∧ node e2 = node_B t2 t3 ∧
    description e2 = EmptyString ∧
    rendered (e2, seen2) = Ok ls2 ∧
    ["* A" +:+ nl; "* B" +:+ nl; "world" +:+ nl] `sublist_of` ls2.
Proof.
  intros H1 H2 H3 H12 H23.
  assert (documents_by_time [node_A t1; node_B t2 t3] =
          traverse (entry_of [node_A t1; node_B t2 t3])
            (scan [(t1, 0); (t1, 0); (t2, 1); (t3, 1)] t1 0 (incr 0 ∅)))
    as Hscan.
  { unfold documents_by_time. by rewrite (example_times t1 t2 t3 H12 H23). }
  eexists _, _, _, _, _. split.
  { apply get_documents_by_time_Ok. eexists. split.
    - by apply example_tree_nodes.
    - rewrite Hscan. reflexivity. }
  repeat split; try reflexivity.
Qed.

Lemma example_yields_two_entries_witness :
  ∃ e1 e2 seen1 seen2 ls2,
    get_documents_by_time (H := numeral_float) 100 (example_tree "1" "2" "3")
      = Ok [(e1, seen1); (e2, seen2)] ∧
    time e1 = 1%Z ∧ node e1 = node_A 1 ∧
    time e2 = 3%Z ∧ node e2 = node_B 2 3 ∧
    description e2 = EmptyString ∧
    rendered (e2, seen2) = Ok ls2 ∧
    ["* A" +:+ nl; "* B" +:+ nl; "world" +:+ nl] `sublist_of` ls2.
Proof.
  apply (example_yields_two_entries (H := numeral_float) 100 "1" "2" "3"
           1 2 3); [reflexivity | reflexivity | reflexivity | lia | lia].
Defined.

(** C1 fails as stated: at the times 1, 2 and 3 the example yields two
    entries, not the three expected ones; the first has the description
    [section: ] and a document without the text of A. *)
Lemma example_not_three_entries :
  get_documents_by_time (H := numeral_float) 100 (example_tree "1" "2" "3")
    = Ok example_entries ∧
  summary <$> example_entries =
    [ (1%Z, Some "A", "section: ", Ok ("* A" +:+ nl +:+ "* B" +:+ nl));
      (3%Z, Some "B", EmptyString,
       Ok ("* A" +:+ nl +:+ "* B" +:+ nl +:+ "world" +:+ nl)) ] ∧
  summary <$> example_entries ≠ expected_summaries.
Proof.
  split; [reflexivity|]. split; [reflexivity|].
  intros Heq. apply (f_equal length) in Heq. vm_compute in Heq.
  discriminate Heq.
Qed.

(** Read after the generator is exhausted, every entry of the example shows
    the last document. *)
Lemma example_rendered_after :
  (λ es : Entry * Counter, rendered_after example_entries es.1)
    <$> example_entries =
  [ Ok ["* A" +:+ nl; "* B" +:+ nl; "world" +:+ nl];
    Ok ["* A" +:+ nl; "* B" +:+ nl; "world" +:+ nl] ].
Proof. reflexivity. Qed.

(** ** The first event is counted twice, for every tree *)

Lemma tally_count (evs : list event) (seen : Counter) (k : nat) :
  count (tally evs seen) k = count seen k + events_of_node k evs.
Proof.
  unfold events_of_node. revert seen.
  induction evs as [|[t i] evs IH]; intros seen; simpl; [lia|].
  rewrite IH, filter_cons. simpl. case_decide as Hi.
  - subst. rewrite count_incr_eq. simpl. lia.
  - by rewrite count_incr_ne.
Qed.

Lemma events_of_node_offset (j k : nat) (nodes : list Node) :
  events_of_node k
    (imap (λ i n, (j + i, n)) nodes ≫=
       λ '(i, n), [(created n, i); (modified n, i)]) =
  if decide (j ≤ k < j + length nodes) then 2 else 0.
Proof.
  unfold events_of_node. revert j.
  induction nodes as [|n nodes IH]; intros j.
  - simpl. case_decide; [lia|done].
  - rewrite imap_cons, bind_cons, filter_app, length_app.
    rewrite (imap_ext _ (λ i n, (S j + i, n))) by (intros; simpl; f_equal; lia).
    rewrite IH. simpl length at 2. rewrite !filter_cons, filter_nil. simpl.
    repeat case_decide; simpl; lia.
Qed.

(** Every node has two events in the sorted list. *)
Lemma events_of_node_times (nodes : list Node) (k : nat) :
  k < length nodes → events_of_node k (times nodes) = 2.
Proof.
  intros Hk. unfold events_of_node. rewrite times_Permutation.
  pose proof (events_of_node_offset 0 k nodes) as Hoff.
  unfold events_of_node in Hoff. unfold events, enumerate.
  rewrite decide_True in Hoff by lia. exact Hoff.
Qed.

(** For every tree with a node, the node of the first event has the count 3
    when the scan ends: once for [seen[last_id] += 1] and twice in the
    loop. *)
Lemma first_node_counted_three (n : Node) (ns : list Node) :
  ∃ t0 id0 evs entries,
    times (n :: ns) = (t0, id0) :: evs ∧
    documents_by_time (n :: ns) = Ok entries ∧
    count (final_seen entries) id0 = 3.
Proof.
  destruct (documents_by_time_total n ns) as [entries Hentries].
  destruct (entries_seen _ _ Hentries) as ([t0 id0] & evs & Htimes & _ & Hfinal).
  exists t0, id0, evs, entries. split; [done|]. split; [done|].
  rewrite Hfinal, tally_count, count_incr_eq, <- Htimes. simpl snd.
  rewrite events_of_node_times; [done|].
  pose proof (times_ids_below (n :: ns)) as Hids. rewrite Htimes in Hids.
  by apply Forall_cons in Hids as [? _].
Qed.

(** ** Where the code departs from its documentation *)

(** C5.  The loop iterates [times] from its first element although that
    element was already taken from [times_iter] and counted: for one node
    created and modified at 1 the node's count reaches 3, the description
    is [section: ] and the text is missing from the document. *)
Theorem single_node_counted_three :
  ∃ e seen,
    get_documents_by_time (H := numeral_float) 100 single_tree
      = Ok [(e, seen)] ∧
    count seen 0 = 3 ∧
    summary (e, seen) = (1%Z, Some "A", "section: ", Ok ("* A" +:+ nl)).
Proof. eexists _, _. repeat split. Qed.

(** C3.  The counter is incremented for the event that ends a run before
    the run's triple is yielded: in the example the first triple, for the
    run of A, already counts the creation of B, and counts A three times. *)
Theorem first_triple_counts_later_event :
  ∃ seen1 seen2,
    no_consecutive_duplicates (times [node_A 1; node_B 2 3])
      = Ok [(1%Z, 0, seen1); (3%Z, 1, seen2)] ∧
    runs (times [node_A 1; node_B 2 3])
      = [[(1%Z, 0); (1%Z, 0)]; [(2%Z, 1); (3%Z, 1)]] ∧
    map_to_list (counts_through [(1%Z, 0); (1%Z, 0)]) = [(0, 2)] ∧
    count seen1 0 = 3 ∧ count seen1 1 = 1 ∧
    seen1 ≠ counts_through [(1%Z, 0); (1%Z, 0)].
Proof.
  eexists _, _. split; [reflexivity|]. split; [reflexivity|].
  split; [reflexivity|]. split; [reflexivity|]. split; [reflexivity|].
  intros Heq. apply (f_equal (λ s, count s 1)) in Heq. vm_compute in Heq.
  discriminate Heq.
Qed.

(** C2.  With alternating events the text of A is in the document of the
    first entry, when A's count is 2, and is gone from the document of the
    second, when the count is 3. *)
Theorem text_lost_in_later_document :
  ∃ es1 es2 es3 es4 ls1 ls2,
    get_documents_by_time (H := numeral_float) 100 interleaved_tree
      = Ok [es1; es2; es3; es4] ∧
    rendered es1 = Ok ls1 ∧ rendered es2 = Ok ls2 ∧
    ls1 = ["* A" +:+ nl; "hello" +:+ nl; "* B" +:+ nl] ∧
    ls2 = ["* A" +:+ nl; "* B" +:+ nl] ∧
    ("hello" +:+ nl) ∈ ls1 ∧ (("hello" +:+ nl) ∉ ls2) ∧
    count es1.2 0 = 2 ∧ count es2.2 0 = 3.
Proof.
  eexists _, _, _, _, _, _. split; [reflexivity|].
  split; [reflexivity|]. split; [reflexivity|].
  split; [reflexivity|]. split; [reflexivity|].
  split; [|split; [|split; reflexivity]].
  - right. left.
  - intros Hin. repeat (apply elem_of_cons in Hin as [Heq|Hin];
      [discriminate Heq|]). by apply elem_of_nil in Hin.
Qed.

(** * Further properties *)

(** ** Flattening *)

Lemma element_induction (P : element → Prop) :
  (∀ tg a tx cs, Forall P cs → P (Element tg a tx cs)) → ∀ e, P e.
Proof.
  intros Hstep. fix IH 1. intros [tg a tx cs]. apply Hstep.
  induction cs as [|c cs IHcs]; constructor; [apply IH|exact IHcs].
Qed.

Lemma each_child_Ok `{PyFloat} (render : element → res (list Node))
    (visit : element → list (nat * element)) (cs : list element)
    (rest : list Node) :
  Forall (λ c, ∀ ns, render c = Ok ns → Forall2 rendered_as ns (visit c)) cs →
  each_child render cs = Ok rest →
  Forall2 rendered_as rest (each_node visit cs).
Proof.
  intros Hcs. revert rest.
  induction Hcs as [|c cs Hc _ IH]; intros rest; simpl.
  - intros [= <-]. constructor.
  - case_decide; [|apply IH].
    intros (ns & Hns & (ms & Hms & [= <-])%bind_Ok)%bind_Ok.
    apply Forall2_app; [by apply Hc|by apply IH].
Qed.

Lemma render_node_visited `{PyFloat} (e : element) (level : nat)
    (dc dm : datetime) (ns : list Node) :
  render_node e level dc dm = Ok ns → Forall2 rendered_as ns (visited level e).
Proof.
  revert level dc dm ns.
  induction e as [tg a tx cs IH] using element_induction.
  intros level dc dm ns. rewrite render_node_eq.
  intros (c & _ & (m & _ & (rest & Hrest & [= <-])%bind_Ok)%bind_Ok)%bind_Ok.
  simpl. constructor; [done|].
  eapply each_child_Ok; [|exact Hrest].
  eapply Forall_impl; [exact IH|]. intros child Hchild ns. apply Hchild.
Qed.

Lemma parse_nodes_visited `{PyFloat} (now : datetime) (root : element)
    (ns : list Node) :
  parse_nodes now root = Ok ns →
  Forall2 rendered_as ns (visited_from_root root).
Proof.
  unfold parse_nodes, visited_from_root. generalize (children root) as cs.
  intros cs. revert ns. induction cs as [|c cs IH]; intros ns; simpl.
  - intros [= <-]. constructor.
  - intros (ms & Hms & (ks & Hks & [= <-])%bind_Ok)%bind_Ok.
    apply Forall2_app; [by eapply render_node_visited|by apply IH].
Qed.

(** X1.  When the flattening succeeds, its nodes are the visited elements
    in pre-order, a parent before its children and the children from left
    to right: each node has the name of its element, the header made of as
    many asterisks as the element's depth, a space, the name and a line
    feed, and the text of the element's [rich_text] children. *)
Theorem parse_nodes_preorder `{PyFloat} (now : datetime) (root : element)
    (ns : list Node) :
  parse_nodes now root = Ok ns →
  Forall2 rendered_as ns (visited_from_root root).
Proof. apply parse_nodes_visited. Qed.

Lemma parse_nodes_preorder_witness :
  Forall2 rendered_as nested_nodes (visited_from_root nested_tree).
Proof.
  apply (parse_nodes_preorder (H := numeral_float) 9 nested_tree nested_nodes).
  reflexivity.
Defined.

Lemma each_child_total `{PyFloat} (render : element → res (list Node))
    (visit : element → list (nat * element)) (cs : list element) :
  Forall (λ c, (∃ ns, render c = Ok ns) ↔
               Forall (λ de, timestamps_parse de.2) (visit c)) cs →
  (∃ rest, each_child render cs = Ok rest) ↔
  Forall (λ de, timestamps_parse de.2) (each_node visit cs).
Proof.
  induction 1 as [|c cs Hc _ IH]; simpl.
  - split; [constructor|by eexists].
  - case_decide; [|exact IH]. rewrite Forall_app, <- Hc, <- IH. split.
    + intros (rest & (ns & Hns & (ms & Hms & _)%bind_Ok)%bind_Ok). eauto.
    + intros [[ns Hns] [ms Hms]]. rewrite Hns. simpl. rewrite Hms. simpl.
      by eexists.
Qed.

Lemma render_node_total `{PyFloat} (e : element) (level : nat)
    (dc dm : datetime) :
  (∃ ns, render_node e level dc dm = Ok ns) ↔
  Forall (λ de, timestamps_parse de.2) (visited level e).
Proof.
  revert level dc dm.
  induction e as [tg a tx cs IH] using element_induction.
  intros level dc dm. rewrite render_node_eq. simpl visited.
  rewrite Forall_cons. unfold timestamps_parse at 1. simpl attrib.
  split.
  - intros (ns & (c & Hc & (m & Hm & (rest & Hrest & _)%bind_Ok)%bind_Ok)%bind_Ok).
    split; [eauto|].
    eapply each_child_total; [|by eexists].
    eapply Forall_impl; [exact IH|]. intros child Hchild. apply Hchild.
  - intros [[[c Hc] [m Hm]] Hcs]. rewrite Hc. simpl. rewrite Hm. simpl.
    eapply (each_child_total
              (λ child, render_node child (S level) (default dc c) (default dm m)))
      in Hcs as [rest Hrest].
    + rewrite Hrest. simpl. by eexists.
    + eapply Forall_impl; [exact IH|]. intros child Hchild. apply Hchild.
Qed.

(** X2.  The flattening succeeds exactly when both timestamp attributes of
    every visited element are read without an exception; otherwise it
    raises, whatever the defaults. *)
Theorem parse_nodes_succeeds_iff `{PyFloat} (now : datetime) (root : element) :
  (∃ ns, parse_nodes now root = Ok ns) ↔
  Forall (λ de, timestamps_parse de.2) (visited_from_root root).
Proof.
  unfold parse_nodes, visited_from_root. generalize (children root) as cs.
  induction cs as [|c cs IH]; simpl.
  - split; [constructor|by eexists].
  - rewrite Forall_app, <- IH, <- (render_node_total c 1 now now). split.
    + intros (ns & (ms & Hms & (ks & Hks & _)%bind_Ok)%bind_Ok). eauto.
    + intros [[ms Hms] [ks Hks]]. rewrite Hms. simpl. rewrite Hks. simpl.
      by eexists.
Qed.

Lemma each_child_inherits `{PyFloat} (render : element → res (list Node))
    (visit : element → list (nat * element)) (dc : datetime)
    (cs : list element) (rest : list Node) :
  Forall (λ c, ∀ ns,
            Forall (λ de, zero_timestamp (get (attrib de.2) "ts_creation"))
                   (visit c) →
            render c = Ok ns → Forall (λ n, created n = dc) ns) cs →
  Forall (λ de, zero_timestamp (get (attrib de.2) "ts_creation"))
         (each_node visit cs) →
  each_child render cs = Ok rest →
  Forall (λ n, created n = dc) rest.
Proof.
  intros Hcs. revert rest.
  induction Hcs as [|c cs Hc _ IH]; intros rest; simpl.
  - intros _ [= <-]. constructor.
  - case_decide; [|apply IH].
    intros [Hzc Hzcs]%Forall_app
      (ns & Hns & (ms & Hms & [= <-])%bind_Ok)%bind_Ok.
    apply Forall_app. split; [by apply Hc|by apply IH].
Qed.

Lemma render_node_inherits `{PyFloat} (e : element) (level : nat)
    (dc dm : datetime) (ns : list Node) :
  Forall (λ de, zero_timestamp (get (attrib de.2) "ts_creation"))
         (visited level e) →
  render_node e level dc dm = Ok ns →
  Forall (λ n, created n = dc) ns.
Proof.
  revert level dc dm ns.
  induction e as [tg a tx cs IH] using element_induction.
  intros level dc dm ns. rewrite render_node_eq. simpl visited.
  intros [Hz Hzs]%Forall_cons
    (c & Hc & (m & _ & (rest & Hrest & [= <-])%bind_Ok)%bind_Ok)%bind_Ok.
  simpl in Hz. apply parse_date_zero in Hz. rewrite Hz in Hc.
  injection Hc as <-. simpl in *.
  constructor; [done|].
  eapply each_child_inherits; [|exact Hzs|exact Hrest].
  eapply Forall_impl; [exact IH|]. intros child Hchild ks. apply Hchild.
Qed.

(** X3.  The default runs down the whole tree: when the creation timestamp
    of every visited element is zero, every flattened node is created at
    the time the flattening took as [datetime.now()]. *)
Theorem untimed_nodes_created_now `{PyFloat} (now : datetime) (root : element)
    (ns : list Node) :
  parse_nodes now root = Ok ns →
  Forall (λ de, zero_timestamp (get (attrib de.2) "ts_creation"))
         (visited_from_root root) →
  Forall (λ n, created n = now) ns.
Proof.
  unfold parse_nodes, visited_from_root. generalize (children root) as cs.
  intros cs. revert ns. induction cs as [|c cs IH]; intros ns; simpl.
  - intros [= <-] _. constructor.
  - intros (ms & Hms & (ks & Hks & [= <-])%bind_Ok)%bind_Ok
      [Hzc Hzcs]%Forall_app.
    apply Forall_app. split; [by eapply render_node_inherits|by apply IH].
Qed.

Lemma untimed_nodes_created_now_witness :
  Forall (λ n, created n = 9%Z) untimed_nodes.
Proof.
  apply (untimed_nodes_created_now (H := numeral_float) 9 untimed_tree
           untimed_nodes); [reflexivity|].
  repeat constructor; exists "0", 0%Z; repeat split.
Defined.

(** ** The text of a node *)

Lemma asterisk_sub_escapes (bol : bool) (s : string) :
  no_leading_asterisk bol (asterisk_sub bol s) = true.
Proof.
  revert bol. induction s as [|c s IH]; intros bol; [done|].
  simpl. destruct (bol && Ascii.eqb c "*"%char) eqn:Hc.
  - simpl. rewrite andb_false_r. simpl. apply IH.
  - simpl. rewrite Hc. simpl. apply IH.
Qed.

Lemma rstrip_no_leading_asterisk (bol : bool) (s : string) :
  no_leading_asterisk bol s = true → no_leading_asterisk bol (rstrip s) = true.
Proof.
  revert bol. induction s as [|c s IH]; intros bol; [done|].
  simpl. intros [Hc Hs]%andb_true_iff.
  destruct (isspace c && is_empty (rstrip s)); [done|].
  simpl. rewrite Hc. simpl. by apply IH.
Qed.

Lemma line_no_leading_asterisk (bol : bool) (s t : string) :
  no_leading_asterisk bol s = true → no_leading_asterisk true t = true →
  no_leading_asterisk bol (s +:+ nl +:+ t) = true.
Proof.
  revert bol. induction s as [|c s IH]; intros bol; simpl.
  - intros _ Ht. rewrite andb_false_r. simpl. exact Ht.
  - intros [Hc Hs]%andb_true_iff Ht. rewrite Hc. simpl. by apply IH.
Qed.

Lemma rich_text_no_leading_asterisk (cs : list element) :
  no_leading_asterisk true (rich_text cs) = true.
Proof.
  induction cs as [|c cs IH]; simpl; [done|].
  destruct (elem_text c) as [t|]; [|done].
  destruct (is_empty t); [done|].
  apply line_no_leading_asterisk; [|done].
  apply rstrip_no_leading_asterisk, asterisk_sub_escapes.
Qed.

(** X4.  No line of the text of a flattened node begins with an asterisk:
    the asterisks that open a line of a fragment are escaped, and neither
    the stripping nor the joining of the fragments brings one back. *)
Theorem node_text_has_no_heading `{PyFloat} (now : datetime) (root : element)
    (ns : list Node) (n : Node) :
  parse_nodes now root = Ok ns →
  n ∈ ns →
  no_leading_asterisk true (text n) = true.
Proof.
  intros Hns%parse_nodes_visited [i Hi]%list_elem_of_lookup_1.
  destruct (Forall2_lookup_l _ _ _ _ _ Hns Hi) as (de & _ & _ & _ & ->).
  apply rich_text_no_leading_asterisk.
Qed.

Lemma node_text_has_no_heading_witness :
  no_leading_asterisk true ("\ast{}a" +:+ nl) = true.
Proof.
  apply (node_text_has_no_heading (H := numeral_float) 9 nested_tree
           nested_nodes (mkNode (Some "A") ("* A" +:+ nl) ("\ast{}a" +:+ nl) 1 2));
    [reflexivity|left].
Defined.

(** X5.  The escaping leaves a string unchanged exactly when no line of it
    begins with an asterisk. *)
Theorem asterisk_sub_fixes_iff (bol : bool) (s : string) :
  asterisk_sub bol s = s ↔ no_leading_asterisk bol s = true.
Proof.
  revert bol. induction s as [|c s IH]; intros bol; [done|].
  simpl. destruct (bol && Ascii.eqb c "*"%char) eqn:Hc; simpl.
  - apply andb_true_iff in Hc as [_ Hc%Ascii.eqb_eq]. subst c.
    split; [intros [=]|done].
  - rewrite <- IH. split; [by intros [= ->]|by intros ->].
Qed.

(** ** The scan *)

Lemma scan_head (evs : list event) (last_t : datetime) (last_id : nat)
    (seen : Counter) :
  ∃ tr trs, scan evs last_t last_id seen = tr :: trs ∧ tr.1.2 = last_id.
Proof.
  revert last_t seen.
  induction evs as [|[t node_id] evs IH]; intros last_t seen.
  - by eexists _, _.
  - rewrite scan_cons. case_decide as Hne.
    + by eexists _, _.
    + subst node_id. apply IH.
Qed.

Lemma scan_adjacent (evs : list event) (last_t : datetime) (last_id : nat)
    (seen : Counter) (i : nat) (tr1 tr2 : triple) :
  scan evs last_t last_id seen !! i = Some tr1 →
  scan evs last_t last_id seen !! S i = Some tr2 →
  tr1.1.2 ≠ tr2.1.2.
Proof.
  revert last_t last_id seen i.
  induction evs as [|[t node_id] evs IH]; intros last_t last_id seen i.
  - by destruct i.
  - rewrite scan_cons. case_decide as Hne; [|apply IH].
    destruct i as [|i]; simpl; [|apply IH].
    intros [= <-] Htr2.
    destruct (scan_head evs t node_id (incr node_id seen))
      as (tr & trs & Hscan & Hid).
    rewrite Hscan in Htr2. injection Htr2 as <-. simpl. by rewrite Hid.
Qed.

(** X6.  Two consecutive triples of the scan are never for the same node
    index. *)
Theorem consecutive_triples_differ (evs : list event) (trs : list triple)
    (i : nat) (tr1 tr2 : triple) :
  no_consecutive_duplicates evs = Ok trs →
  trs !! i = Some tr1 →
  trs !! S i = Some tr2 →
  tr1.1.2 ≠ tr2.1.2.
Proof.
  unfold no_consecutive_duplicates.
  destruct evs as [|[t0 id0] evs]; [done|]. intros Heq.
  assert (trs = scan ((t0, id0) :: evs) t0 id0 (incr id0 ∅)) as ->
    by (by injection Heq).
  apply scan_adjacent.
Qed.

Lemma consecutive_triples_differ_witness :
  ∃ trs tr1 tr2,
    no_consecutive_duplicates [(1%Z, 0); (2%Z, 1); (3%Z, 1); (4%Z, 0)] = Ok trs ∧
    trs !! 1 = Some tr1 ∧ trs !! 2 = Some tr2 ∧ tr1.1.2 ≠ tr2.1.2.
Proof.
  eexists _, _, _. split; [reflexivity|]. split; [reflexivity|].
  split; [reflexivity|].
  eapply (consecutive_triples_differ
            [(1%Z, 0); (2%Z, 1); (3%Z, 1); (4%Z, 0)] _ 1); reflexivity.
Defined.



Global Instance event_le_refl : Reflexive event_le.
Proof. intros [t i]. right. simpl. lia. Qed.



(** X8.  When the scan of a tree ends, the node of the first sorted event
    has the count 3 and every other node has the count 2. *)
Theorem final_counts (nodes : list Node) (entries : list (Entry * Counter))
    (t0 : datetime) (id0 : nat) (evs : list event) (k : nat) :
  documents_by_time nodes = Ok entries →
  times nodes = (t0, id0) :: evs →
  k < length nodes →
  count (final_seen entries) k = if decide (k = id0) then 3 else 2.
Proof.
  intros Hentries Htimes Hk.
  destruct (entries_seen _ _ Hentries) as ([t0' id0'] & evs' & Htimes' & _ & ->).
  rewrite Htimes' in Htimes. injection Htimes as -> -> ->.
  rewrite tally_count, <- Htimes', events_of_node_times by done. simpl snd.
  case_decide as Heq.
  - subst k. by rewrite count_incr_eq.
  - by rewrite count_incr_ne.
Qed.

Lemma final_counts_witness :
  count (final_seen example_entries) 1 = 2.
Proof.
  apply (final_counts [node_A 1; node_B 2 3] example_entries 1 0
           [(1%Z, 0); (2%Z, 1); (3%Z, 1)] 1);
    [reflexivity | reflexivity | simpl; lia].
Defined.

(** X9.  The generator yields entries exactly when the flattening succeeds
    with at least one node; it then yields at least one entry. *)
Theorem yields_iff_flattens_to_a_node `{PyFloat} (now : datetime)
    (root : element) :
  (∃ es entries, get_documents_by_time now root = Ok (es :: entries)) ↔
  (∃ n ns, parse_nodes now root = Ok (n :: ns)).
Proof.
  split.
  - intros (es & entries & (nodes & Hnodes & Hentries)%get_documents_by_time_Ok).
    destruct nodes as [|n ns]; [done|]. by exists n, ns.
  - intros (n & ns & Hnodes).
    destruct (documents_by_time_total n ns) as [entries Hentries].
    destruct entries as [|es entries].
    + apply documents_by_time_Ok in Hentries as (t0 & id0 & evs & _ & Hall).
      apply Forall2_nil_inv_r in Hall.
      destruct (scan_head ((t0, id0) :: evs) t0 id0 (incr id0 ∅))
        as (tr & trs & Hscan & _).
      by rewrite Hall in Hscan.
    + exists es, entries. apply get_documents_by_time_Ok. by exists (n :: ns).
Qed.

(** ** The renderer *)

(** X10.  On a counter whose counts are natural numbers, as are all the
    counts the scan makes, the renderer raises nothing exactly when no
    stored count is zero and every key is the index of a node. *)
Theorem document_succeeds_iff (nodes : list Node) (seen : Counter) :
  (∃ ls, document nodes seen = Ok ls) ↔
  (∀ k v, seen !! k = Some v → v ≠ 0) ∧ keys_below (length nodes) seen.
Proof.
  split.
  - intros (ls & (lss & Hlss & _)%bind_Ok).
    assert (∀ k v, seen !! k = Some v → v ≠ 0 ∧ k < length nodes) as Hitem.
    { intros k v Hkv%elem_of_sorted_items.
      apply list_elem_of_lookup_1 in Hkv as [i Hi].
      apply traverse_Ok in Hlss.
      destruct (Forall2_lookup_l _ _ _ _ _ Hlss Hi) as (l & _ & Hl).
      unfold document_item in Hl. case_decide; [done|].
      destruct (nodes !! k) eqn:Hk; [|done].
      apply lookup_lt_Some in Hk. done. }
    split.
    + intros k v Hkv. by apply (Hitem k v).
    + intros k [v Hkv]. by apply (Hitem k v).
  - intros [Hnz Hkeys]. apply document_total; [|done].
    intros k v Hkv. specialize (Hnz k v Hkv). lia.
Qed.

(** X11.  A line of a document is the header of a node that has a key in
    the counter, or the text, when it is not empty, of a node whose count
    is exactly 2. *)
Theorem document_line_iff (nodes : list Node) (seen : Counter)
    (ls : list string) (s : string) :
  document nodes seen = Ok ls →
  s ∈ ls ↔
  ∃ i v n, seen !! i = Some v ∧ nodes !! i = Some n ∧
    (s = header n ∨ (v = 2 ∧ is_empty (text n) = false ∧ s = text n)).
Proof. apply document_lines. Qed.

Lemma document_line_iff_witness :
  ("world" +:+ nl) ∈ ["* A" +:+ nl; "* B" +:+ nl; "world" +:+ nl] ↔
  ∃ i v n,
    final_seen example_entries !! i = Some v ∧
    [node_A 1; node_B 2 3] !! i = Some n ∧
    ("world" +:+ nl = header n ∨
     (v = 2 ∧ is_empty (text n) = false ∧ "world" +:+ nl = text n)).
Proof.
  apply (document_line_iff [node_A 1; node_B 2 3] (final_seen example_entries)).
  reflexivity.
Defined.

(** The keys of the sorted items increase strictly. *)
Lemma sorted_items_keys (seen : Counter) :
  StronglySorted lt (sorted_items seen).*1.
Proof.
  assert (NoDup (sorted_items seen).*1) as Hnd.
  { unfold sorted_items. rewrite merge_sort_Permutation.
    apply NoDup_fst_map_to_list. }
  assert (StronglySorted item_le (sorted_items seen)) as Hs.
  { apply Sorted_StronglySorted.
    - intros [k1 v1] [k2 v2] [k3 v3]. unfold item_le. simpl. lia.
    - apply Sorted_merge_sort; apply _. }
  induction Hs as [|[k v] items Hs IH Hall]; [constructor|].
  rewrite fmap_cons in Hnd |- *. apply NoDup_cons in Hnd as [Hk Hnd].
  constructor; [by apply IH|].
  rewrite Forall_fmap. rewrite Forall_forall in Hall |- *.
  intros [k' v'] Hin. specialize (Hall _ Hin). unfold item_le in Hall.
  simpl in *. destruct (decide (k = k')) as [->|]; [|lia].
  exfalso. apply Hk. by apply (list_elem_of_fmap_2 fst _ (k', v')).
Qed.

(** Nodes looked up at increasing indices are in the order of the list. *)
Lemma increasing_lookups_sublist {A} (l : list A) (ks : list nat)
    (xs : list A) (j : nat) :
  StronglySorted lt ks → Forall (λ k, j ≤ k) ks →
  Forall2 (λ k x, l !! k = Some x) ks xs →
  xs `sublist_of` drop j l.
Proof.
  intros Hs. revert xs j.
  induction Hs as [|k ks Hs IH Hk]; intros xs j Hj Hxs.
  - apply Forall2_nil_inv_l in Hxs as ->. apply sublist_nil_l.
  - apply Forall2_cons_inv_l in Hxs as (x & xs' & Hx & Hxs & ->).
    apply Forall_cons in Hj as [Hjk _].
    trans (drop k l).
    + rewrite (drop_S _ _ _ Hx). apply sublist_skip.
      apply IH; [|done]. eapply Forall_impl; [exact Hk|]. simpl. lia.
    + replace k with (j + (k - j)) by lia. rewrite <- drop_drop.
      apply sublist_drop.
Qed.

Lemma concat_sublist {A} (ls ks : list (list A)) :
  Forall2 sublist ls ks → concat ls `sublist_of` concat ks.
Proof.
  induction 1 as [|l k ls ks Hlk _ IH]; simpl; [done|]. by apply sublist_app.
Qed.

(** X12.  The lines of every document are in the order of the nodes: the
    document is the whole document of the tree with some headers and texts
    left out. *)
Theorem document_in_node_order (nodes : list Node) (seen : Counter)
    (ls : list string) :
  document nodes seen = Ok ls →
  ls `sublist_of` full_document nodes.
Proof.
  unfold document. intros (lss & Hlss%traverse_Ok & [= <-])%bind_Ok.
  assert (∃ ns, Forall2 (λ k n, nodes !! k = Some n) (sorted_items seen).*1 ns ∧
                Forall2 (λ l n, l `sublist_of` [header n; text n]) lss ns)
    as (ns & Hns & Hsub).
  { clear -Hlss.
    induction Hlss as [|[k v] l items lss Hl _ (ns & Hns & Hsub)].
    - exists []. split; constructor.
    - unfold document_item in Hl. case_decide; [done|].
      destruct (nodes !! k) as [n|] eqn:Hk; [|done]. injection Hl as <-.
      exists (n :: ns). split; [by constructor|]. constructor; [|done].
      apply sublist_skip. case_decide; [|apply sublist_nil_l].
      destruct (is_empty (text n)); [apply sublist_nil_l|done]. }
  trans (concat ((λ n, [header n; text n]) <$> ns)).
  - apply concat_sublist. by apply Forall2_fmap_r.
  - unfold full_document.
    assert (ns `sublist_of` nodes) as Hnodes.
    { apply (increasing_lookups_sublist nodes _ ns 0 (sorted_items_keys seen));
        [|done].
      apply Forall_forall. lia. }
    clear -Hnodes. induction Hnodes as [|n l1 l2 _ IH|n l1 l2 _ IH].
    + done.
    + rewrite fmap_cons, bind_cons. simpl. by do 2 apply sublist_skip.
    + rewrite bind_cons. simpl. by do 2 apply sublist_cons.
Qed.

Lemma document_in_node_order_witness :
  ["* A" +:+ nl; "* B" +:+ nl; "world" +:+ nl]
    `sublist_of` full_document [node_A 1; node_B 2 3].
Proof.
  apply (document_in_node_order [node_A 1; node_B 2 3]
           (final_seen example_entries)).
  reflexivity.
Defined.

(** ** The number of entries *)


Lemma events_length_offset (j : nat) (nodes : list Node) :
  length (imap (λ i n, (j + i, n)) nodes ≫=
            λ '(i, n), [(created n, i); (modified n, i)])
  = 2 * length nodes.
Proof.
  revert j. induction nodes as [|n nodes IH]; intros j; [done|].
  rewrite imap_cons, bind_cons, length_app.
  rewrite (imap_ext _ (λ i n, (S j + i, n))) by (intros; simpl; f_equal; lia).
  rewrite IH. simpl. lia.
Qed.

Lemma times_length (nodes : list Node) : length (times nodes) = 2 * length nodes.
Proof.
  rewrite times_Permutation. apply (events_length_offset 0).
Qed.



(** ** Empty texts *)

Lemma append_line_not_empty (s t : string) : is_empty (s +:+ nl +:+ t) = false.
Proof. by destruct s. Qed.

(** X15.  The text of a node is empty exactly when none of the children it
    is made from has a text: every other fragment leaves at least a line
    feed. *)
Theorem rich_text_empty_iff (cs : list element) :
  is_empty (rich_text cs) = true ↔ Forall no_fragment cs.
Proof.
  induction cs as [|c cs IH]; simpl.
  - split; [constructor|done].
  - rewrite Forall_cons, <- IH. unfold no_fragment.
    destruct (elem_text c) as [[|a t]|]; simpl.
    + split; [auto|by intros [_ ?]].
    + rewrite append_line_not_empty. split; [done|].
      intros [[?|?] _]; done.
    + split; [auto|by intros [_ ?]].
Qed.

(** ** Counts only grow *)

Lemma scan_above (evs : list event) (last_t : datetime) (last_id : nat)
    (seen : Counter) (k : nat) :
  Forall (λ tr : triple, count seen k ≤ count tr.2 k)
         (scan evs last_t last_id seen).
Proof.
  eapply Forall_impl; [apply scan_stores|].
  intros tr [j ->]. apply tally_count_le.
Qed.

Lemma scan_monotone (evs : list event) (last_t : datetime) (last_id : nat)
    (seen : Counter) (k : nat) :
  StronglySorted (λ tr1 tr2 : triple, count tr1.2 k ≤ count tr2.2 k)
                 (scan evs last_t last_id seen).
Proof.
  revert last_t last_id seen.
  induction evs as [|[t node_id] evs IH]; intros last_t last_id seen.
  - repeat constructor.
  - rewrite scan_cons. case_decide; simpl; [|apply IH].
    constructor; [apply IH|]. apply scan_above.
Qed.

Lemma StronglySorted_lookup_le {A} (R : relation A) `{!Reflexive R}
    (l : list A) (i j : nat) (x y : A) :
  StronglySorted R l → i ≤ j → l !! i = Some x → l !! j = Some y → R x y.
Proof.
  intros Hs. revert i j. induction Hs as [|z l Hs IH Hz]; intros i j Hij Hx Hy.
  - done.
  - destruct i as [|i], j as [|j]; simpl in *; try lia.
    + by simplify_eq.
    + injection Hx as ->. rewrite Forall_forall in Hz. apply Hz.
      by eapply list_elem_of_lookup_2.
    + eapply (IH i j); [lia|done..].
Qed.

(** X16.  The count of a node never goes down from one entry to a later
    one; so a node that is counted at an entry has its header in the
    document of that entry and in the document of every later entry, as
    the consumer reads them. *)
Theorem counts_never_decrease `{PyFloat} (now : datetime) (root : element)
    (nodes : list Node) (entries : list (Entry * Counter)) (i j k : nat)
    (a b : Entry * Counter) (n : Node) :
  parse_nodes now root = Ok nodes →
  get_documents_by_time now root = Ok entries →
  i ≤ j →
  entries !! i = Some a →
  entries !! j = Some b →
  nodes !! k = Some n →
  count a.2 k ≤ count b.2 k ∧
  (0 < count a.2 k →
   ∃ la lb, rendered a = Ok la ∧ rendered b = Ok lb ∧
            header n ∈ la ∧ header n ∈ lb).
Proof.
  intros Hnodes (nodes' & Hnodes' & Hentries)%get_documents_by_time_Ok
    Hij Ha Hb Hn.
  rewrite Hnodes in Hnodes'. injection Hnodes' as <-.
  assert (count a.2 k ≤ count b.2 k) as Hle.
  { destruct (documents_by_time_Ok _ _ Hentries)
      as (t0 & id0 & evs & _ & Hall).
    destruct (Forall2_lookup_r _ _ _ _ _ Hall Ha) as (tra & Htra & Hea).
    destruct (Forall2_lookup_r _ _ _ _ _ Hall Hb) as (trb & Htrb & Heb).
    apply entry_of_Ok in Hea as (_ & _ & -> & _).
    apply entry_of_Ok in Heb as (_ & _ & -> & _).
    assert (Reflexive (λ tr1 tr2 : triple, count tr1.2 k ≤ count tr2.2 k))
      as Hrefl by (intros tr; lia).
    exact (StronglySorted_lookup_le
             (λ tr1 tr2 : triple, count tr1.2 k ≤ count tr2.2 k) _ i j tra trb
             (scan_monotone _ _ _ _ k) Hij Htra Htrb). }
  split; [exact Hle|]. intros Hpos.
  assert (a ∈ entries) as Hina by by eapply list_elem_of_lookup_2.
  assert (b ∈ entries) as Hinb by by eapply list_elem_of_lookup_2.
  destruct (entries_render _ _ _ Hentries Hina) as [[la Hla] _].
  destruct (entries_render _ _ _ Hentries Hinb) as [[lb Hlb] _].
  exists la, lb. split; [done|]. split; [done|].
  unfold rendered in Hla, Hlb.
  rewrite (entries_text _ _ _ Hentries Hina) in Hla.
  rewrite (entries_text _ _ _ Hentries Hinb) in Hlb.
  split.
  - eapply document_header; [exact Hla| |exact Hn].
    apply count_pos_lookup in Hpos as (v & Hv & _). by exists v.
  - eapply document_header; [exact Hlb| |exact Hn].
    assert (0 < count b.2 k) as Hposb by lia.
    apply count_pos_lookup in Hposb as (v & Hv & _). by exists v.
Qed.

Lemma counts_never_decrease_witness :
  ∃ a b, example_entries !! 0 = Some a ∧ example_entries !! 1 = Some b ∧
    count a.2 1 ≤ count b.2 1 ∧
    (0 < count a.2 1 →
     ∃ la lb, rendered a = Ok la ∧ rendered b = Ok lb ∧
              header (node_B 2 3) ∈ la ∧ header (node_B 2 3) ∈ lb).
Proof.
  eexists _, _. split; [reflexivity|]. split; [reflexivity|].
  eapply (counts_never_decrease (H := numeral_float) 100
            (example_tree "1" "2" "3") [node_A 1; node_B 2 3]
            example_entries 0 1);
    [reflexivity | reflexivity | lia | reflexivity | reflexivity | reflexivity].
Defined.

(** ** Exceptions of the generator *)

(** X17.  The generator raises only what the flattening raises, or
    [RuntimeError] when the tree has no node: the scan and the making of
    the entries add no exception of their own. *)
Theorem generator_exceptions `{PyFloat} (now : datetime) (root : element)
    (e : exn) :
  get_documents_by_time now root = Raise e →
  parse_nodes now root = Raise e ∨
  (parse_nodes now root = Ok [] ∧ e = RuntimeError).
Proof.
  unfold get_documents_by_time.
  destruct (parse_nodes now root) as [[|n ns]|e'] eqn:Hnodes.
  - intros [= <-]. by right.
  - destruct (documents_by_time_total n ns) as [entries Hentries].
    simpl. by rewrite Hentries.
  - intros [= <-]. by left.
Qed.

Lemma generator_exceptions_witness :
  parse_nodes (H := numeral_float) 100 (tree_of []) = Raise RuntimeError ∨
  (parse_nodes (H := numeral_float) 100 (tree_of []) = Ok [] ∧
   RuntimeError = RuntimeError).
Proof.
  apply (generator_exceptions (H := numeral_float) 100 (tree_of [])).
  reflexivity.
Defined.

(** ** Descriptions and texts *)

(** X18.  An entry with the empty description shows the text of its node,
    when the node has one, in the document it hands to the consumer. *)
Theorem empty_description_shows_text `{PyFloat} (now : datetime)
    (root : element) (entries : list (Entry * Counter))
    (es : Entry * Counter) (ls : list string) :
  get_documents_by_time now root = Ok entries →
  es ∈ entries →
  description es.1 = EmptyString →
  is_empty (text (node es.1)) = false →
  rendered es = Ok ls →
  text (node es.1) ∈ ls.
Proof.
  intros (nodes & _ & Hentries)%get_documents_by_time_Ok Hes Hd Htext Hls.
  unfold rendered in Hls. rewrite (entries_text _ _ _ Hentries Hes) in Hls.
  apply documents_by_time_Ok in Hentries as (t0 & id0 & evs & _ & Hall).
  apply list_elem_of_lookup_1 in Hes as [j Hj].
  destruct (Forall2_lookup_r _ _ _ _ _ Hall Hj) as (tr & _ & Htr).
  apply entry_of_Ok in Htr as (_ & Hnode & Hseen & _ & Hdesc).
  rewrite Hd in Hdesc. case_decide as Hcount; [|done].
  apply (document_lines _ _ _ _ Hls).
  unfold count in Hcount. rewrite <- Hseen in Hcount.
  destruct (es.2 !! tr.1.2) as [v|] eqn:Hv; [|done]. simpl in Hcount.
  exists tr.1.2, v, (node es.1).
  split; [done|]. split; [done|]. right. done.
Qed.

Lemma empty_description_shows_text_witness :
  ∃ es, example_entries !! 1 = Some es ∧
    text (node es.1) ∈ ["* A" +:+ nl; "* B" +:+ nl; "world" +:+ nl].
Proof.
  eexists. split; [reflexivity|].
  eapply (empty_description_shows_text (H := numeral_float) 100
            (example_tree "1" "2" "3") example_entries);
    [reflexivity | right; left | reflexivity | reflexivity | reflexivity].
Defined.

(** ** Events *)

(** X19.  The sorted list holds two events per node, and exactly two for
    each node index: the creation and the modification. *)
Theorem two_events_per_node (nodes : list Node) (k : nat) :
  k < length nodes →
  length (times nodes) = 2 * length nodes ∧
  events_of_node k (times nodes) = 2 ∧
  ∀ t, (t, k) ∈ times nodes ↔
       ∃ n, nodes !! k = Some n ∧ (t = created n ∨ t = modified n).
Proof.
  intros Hk. split; [apply times_length|].
  split; [by apply events_of_node_times|].
  intros t. apply elem_of_times.
Qed.

Lemma two_events_per_node_witness :
  length (times [node_A 1; node_B 2 3]) = 2 * length [node_A 1; node_B 2 3] ∧
  events_of_node 1 (times [node_A 1; node_B 2 3]) = 2 ∧
  ∀ t, (t, 1) ∈ times [node_A 1; node_B 2 3] ↔
       ∃ n, [node_A 1; node_B 2 3] !! 1 = Some n ∧
            (t = created n ∨ t = modified n).
Proof.
  apply (two_events_per_node [node_A 1; node_B 2 3] 1). simpl. lia.
Defined.
